(** * geo-coder: the cache-aside reverse-geocoding layer

    A shallow embedding of [geocoderService.js] (the [GeocoderService]
    class), of the [GeoCache] collection it reads and writes, and of the
    stand-alone variant [utils/geocoder.js], together with the properties
    the specification states about them.

    Coordinates are IEEE-754 binary64 numbers (Rocq's primitive floats),
    cache keys are strings produced by JavaScript's Number-to-String
    conversion, the collection is a finite map from [cacheKey] to record,
    and [async] methods are state-passing functions that return either a
    value or the thrown error. *)

From stdpp Require Import gmap strings list.
From Stdlib Require Uint63 FloatAxioms.
From Stdlib Require Import ZArith Ascii String PrimFloat FloatOps SpecFloat.

#[local] Set Warnings "-inexact-float".
#[local] Open Scope string_scope.
#[local] Open Scope Z_scope.

(* ===================================================================== *)
(** ** JavaScript numbers: [Math.round] and Number-to-String             *)
(* ===================================================================== *)

Module JS.

(** Decimal rendering of integers. *)

Definition digit_char (d : Z) : ascii := ascii_of_nat (48 + Z.to_nat d).

(** The [k] least significant decimal digits of [s], most significant
    first, put in front of [acc]. *)
Fixpoint digits (k : nat) (s : Z) (acc : string) : string :=
  match k with
  | O => acc
  | S k' => digits k' (s / 10) (String (digit_char (s mod 10)) acc)
  end.

Fixpoint count_digits (fuel : nat) (s : Z) : nat :=
  match fuel with
  | O => 1%nat
  | S f => if s <? 10 then 1%nat else S (count_digits f (s / 10))
  end.

(** A non-negative integer in decimal, without leading zeros. *)
Definition nat_dec (s : Z) : string :=
  digits (count_digits (Z.to_nat (Z.log2 s) + 1) s) s "".

Fixpoint zeros (k : nat) : string :=
  match k with
  | O => ""
  | S k' => String "0"%char (zeros k')
  end.

Fixpoint take (k : nat) (s : string) : string :=
  match k, s with
  | S k', String c s' => String c (take k' s')
  | _, _ => ""
  end.

Fixpoint drop (k : nat) (s : string) : string :=
  match k, s with
  | S k', String _ s' => drop k' s'
  | _, _ => s
  end.

(** *** Exact comparisons between a binary and a decimal number

    A positive finite binary64 number is [m * 2^e = 4m * 2^(e-2)]; the
    decimals that convert to it (round to nearest, ties to even) are
    those at most [2 * 2^(e-2)] above it and at most [g * 2^(e-2)] below
    it, where [g] is 1 at the lower end of a binade and 2 elsewhere; the
    bounds are reached only when [m] is even.  For a decimal grid of
    step [10^q] all quantities are integers in units of
    [2^min(e-2,0) * 10^min(q,0)]:
    - [quarter e q]: a quarter of the gap to the next number,
    - [scaled m e q]: the number itself,
    - [step e q]: the grid step [10^q]. *)

Definition quarter (e q : Z) : Z := 2 ^ Z.max 0 (e - 2) * 10 ^ Z.max 0 (- q).
Definition scaled (m : positive) (e q : Z) : Z := 4 * Z.pos m * quarter e q.
Definition step (e q : Z) : Z := 10 ^ Z.max 0 q * 2 ^ Z.max 0 (2 - e).

Definition low_gap (m : positive) (e : Z) : Z :=
  if (Z.pos m =? 2 ^ 52) && (-1074 <? e) then 1 else 2.

(** A decimal at distance [d] from the number, the half gap on its side
    being [g]: does it convert to the number? *)
Definition within (m : positive) (d g : Z) : bool :=
  if Z.even (Z.pos m) then d <=? g else d <? g.

(** [m * 2^e < 10^n] *)
Definition below_pow10 (m : positive) (e n : Z) : bool :=
  scaled m e n <? step e n.

(** [10^(n-1) <= m * 2^e < 10^n] *)
Definition is_exponent (m : positive) (e n : Z) : bool :=
  negb (below_pow10 m e (n - 1)) && below_pow10 m e n.

Fixpoint find_exponent (fuel : nat) (m : positive) (e n : Z) : Z :=
  match fuel with
  | O => n
  | S f => if is_exponent m e n then n else find_exponent f m e (n + 1)
  end.

(** The decimal exponent [n] of the number: an estimate from the binary
    exponent is checked and, if it is off, the neighbouring exponents
    are scanned. *)
Definition decimal_exponent (m : positive) (e : Z) : Z :=
  let est := (Z.log2 (Z.pos m) + e) * 1233 / 4096 in
  if is_exponent m e (est + 1) then est + 1
  else find_exponent 8 m e (est - 3).

(** The triple [(s, k, n)] of Number::toString step 5: [k] digits [s]
    with [10^(k-1) <= s < 10^k], [s * 10^(n-k)] converts to the number,
    [k] as small as possible, and [s] the closest such digit string
    (the even one when two are equally close). *)
Record Shortest := { sh_s : Z; sh_k : nat; sh_n : Z }.

(** The [k]-digit decimals next to the number are [lo * 10^q] below it
    and [(lo + 1) * 10^q] above it, with [q = nv - k]. *)
Definition candidate (m : positive) (e nv : Z) (k : nat) : option Shortest :=
  let q := nv - Z.of_nat k in
  let g := quarter e q in
  let t := step e q in
  let (lo, d_lo) := Z.div_eucl (4 * Z.pos m * g) t in
  let hi := lo + 1 in
  let d_hi := t - d_lo in
  let ok_lo := (10 ^ (Z.of_nat k - 1) <=? lo) && within m d_lo (low_gap m e * g) in
  let ok_hi := within m d_hi (2 * g) in
  let pick_hi :=
    ok_hi && (negb ok_lo || (d_hi <? d_lo) || ((d_hi =? d_lo) && Z.even hi)) in
  if pick_hi then
    Some (if hi =? 10 ^ Z.of_nat k
          then {| sh_s := 10 ^ (Z.of_nat k - 1); sh_k := k; sh_n := nv + 1 |}
          else {| sh_s := hi; sh_k := k; sh_n := nv |})
  else if ok_lo then Some {| sh_s := lo; sh_k := k; sh_n := nv |}
  else None.

Fixpoint search (fuel : nat) (m : positive) (e nv : Z) (k : nat) : Shortest :=
  match fuel with
  | O => {| sh_s := Z.pos m; sh_k := k; sh_n := nv |}
  | S f =>
      match candidate m e nv k with
      | Some r => r
      | None => search f m e nv (S k)
      end
  end.

Definition shortest (m : positive) (e : Z) : Shortest :=
  search 17 m e (decimal_exponent m e) 1.

(** Number::toString steps 6 to 10 for a positive finite number. *)
Definition render (r : Shortest) : string :=
  let k := Z.of_nat (sh_k r) in
  let n := sh_n r in
  let ds := digits (sh_k r) (sh_s r) "" in
  if (k <=? n) && (n <=? 21) then
    ds ++ zeros (Z.to_nat (n - k))
  else if (0 <? n) && (n <=? 21) then
    take (Z.to_nat n) ds ++ "." ++ drop (Z.to_nat n) ds
  else if (-6 <? n) && (n <=? 0) then
    "0." ++ zeros (Z.to_nat (- n)) ++ ds
  else
    let ex := (if n - 1 <? 0 then "-" else "+") ++ nat_dec (Z.abs (n - 1)) in
    if k =? 1 then ds ++ "e" ++ ex
    else take 1 ds ++ "." ++ drop 1 ds ++ "e" ++ ex.

(** [String(x)] / [`${x}`] for a Number [x]. *)
Definition NumberToString (x : float) : string :=
  match Prim2SF x with
  | S754_nan => "NaN"
  | S754_zero _ => "0"
  | S754_infinity s => if s then "-Infinity" else "Infinity"
  | S754_finite s m e =>
      (if s then "-" else "") ++ render (shortest m e)
  end.

(** [Math.round(x)]: the integral Number closest to [x], ties towards
    plus infinity; non-finite and integral arguments are returned as
    they are, and a result of zero keeps the sign of a negative [x]. *)
Definition Math_round (x : float) : float :=
  match Prim2SF x with
  | S754_finite s m e =>
      if 0 <=? e then x
      else
        let num := if s then Z.neg m else Z.pos m in
        let r := (2 * num + 2 ^ (- e)) / 2 ^ (1 - e) in
        match r with
        | Z0 => if s then neg_zero else zero
        | Z.pos p => SF2Prim (S754_finite false p 0)
        | Z.neg p => SF2Prim (S754_finite true p 0)
        end
  | _ => x
  end.

End JS.


(* ===================================================================== *)
(** ** Data model                                                        *)
(* ===================================================================== *)

(** *** What [geocoder.lookUp] hands back

    A list of candidate lists (one per queried point); a candidate is an
    object of which the code reads [name], [admin1Code], [admin2Code],
    [countryCode], [population] and [featureCode].  An admin code is
    either an object carrying a [name], or the bare code string.  [None]
    stands for a property that is [undefined] or [null]. *)

Inductive AdminCode :=
| AdminObj (name : option string)
| AdminStr (code : string).

Record Place := {
  raw_name : option string;
  raw_admin1Code : option AdminCode;
  raw_admin2Code : option AdminCode;
  raw_countryCode : option string;
  raw_population : option Z;
  raw_featureCode : option string
}.

Definition RawResult := option (list (list Place)).

(** A value that is a string, or a plain object (through the [||]
    fallback of the admin names, the admin object itself; through a
    lookup of ["__proto__"] in the country table, [Object.prototype]), or
    one of the built-in functions every object inherits from
    [Object.prototype], given by its name. *)
Inductive NameVal :=
| NameStr (s : string)
| NameObj
| NameFun (fname : string).

Definition truthy (v : NameVal) : bool :=
  match v with
  | NameStr s => negb (String.eqb s "")
  | NameObj => true
  | NameFun _ => true
  end.

(** [String(v)], as [Array.prototype.join] applies it. *)
Definition to_str (v : NameVal) : string :=
  match v with
  | NameStr s => s
  | NameObj => "[object Object]"
  | NameFun f => "function " ++ f ++ "() { [native code] }"
  end.

(** [v !== s] for a string [s]. *)
Definition differs (v : NameVal) (s : string) : bool :=
  match v with
  | NameStr t => negb (String.eqb t s)
  | NameObj => true
  | NameFun _ => true
  end.

(** [parts.join(sep)] *)
Fixpoint join (sep : string) (parts : list string) : string :=
  match parts with
  | [] => ""
  | [p] => p
  | p :: rest => p ++ sep ++ join sep rest
  end.

(** *** The canonical location record ([location] of the schema) *)

Record Location := {
  name : string;
  adminName1 : NameVal;
  adminName2 : NameVal;
  countryCode : string;
  countryName : option NameVal;     (* [None]: the property is [undefined] *)
  population : Z;
  featureCode : string;
  displayName : string
}.

(** *** A document of the [GeoCache] collection, with the values the
    code handed to the write; dates are milliseconds since the epoch *)

Record CacheRecord := {
  rec_cacheKey : string;
  latitude : float;
  longitude : float;
  location : Location;
  rawResponse : RawResult;
  createdAt : Z;
  hitCount : Z;
  lastAccessedAt : Z
}.

(** *** What [getLocation] resolves to *)

Inductive Source := FromCache | FromLocal.

Definition source_str (s : Source) : string :=
  match s with
  | FromCache => "cache"
  | FromLocal => "local"
  end.

(** Either the spread of a location record, or the placeholder
    [{ name: 'Unknown', displayName: 'Unknown Location' }]. *)
Inductive Payload :=
| Resolved (loc : Location)
| Unknown.

Record LocationResult := {
  payload : Payload;
  source : Source;
  cacheKey : string;
  res_hitCount : option Z           (* present on a cache hit only *)
}.

Definition res_name (r : LocationResult) : string :=
  match payload r with
  | Resolved loc => name loc
  | Unknown => "Unknown"
  end.

Definition res_displayName (r : LocationResult) : string :=
  match payload r with
  | Resolved loc => displayName loc
  | Unknown => "Unknown Location"
  end.

Record Coord := { lat : float; lng : float }.

(** An element of the array [getLocations] returns:
    [{ ...coord, location }] or [{ ...coord, location: null, error }]. *)
Record BatchEntry := {
  be_coord : Coord;
  be_location : option LocationResult;
  be_error : option string
}.

(* ===================================================================== *)
(** ** The world: collection, initialisation flag, trace of effects      *)
(* ===================================================================== *)

(** The collaborators' calls, in the order they were made. *)
Inductive Event :=
| CacheRead (key : string)
| Lookup (lat lng : float)
| CacheWrite (key : string).

Record World := {
  isInitialized : bool;
  store : gmap string CacheRecord;
  log : list Event
}.

Definition set_store (f : gmap string CacheRecord -> gmap string CacheRecord)
    (w : World) : World :=
  {| isInitialized := isInitialized w; store := f (store w); log := log w |}.

Definition emit (ev : Event) (w : World) : World :=
  {| isInitialized := isInitialized w; store := store w; log := log w ++ [ev] |}.

(** What the environment decides during one [getLocation] call: whether
    a round trip to the collection fails (and with which message), what
    the clock shows when [new Date()] and the schema default [Date.now]
    are evaluated, and what the resolver answers. *)
Record CallEnv := {
  readError : option string;
  tRead : Z;
  lookUp : float -> float -> string + RawResult;
  writeError : option string;
  tWrite : Z;
  tCreate : Z
}.

(** *** Outcomes and the monad of [async] methods *)

Inductive Outcome (A : Type) :=
| Ok (a : A)
| Throw (message : string).
Arguments Ok {A} a.
Arguments Throw {A} message.

Definition M (A : Type) : Type := World -> Outcome A * World.

Definition ret {A} (a : A) : M A := fun w => (Ok a, w).
Definition throw {A} (msg : string) : M A := fun w => (Throw msg, w).
Definition bind {A B} (m : M A) (k : A -> M B) : M B :=
  fun w =>
    match m w with
    | (Ok a, w') => k a w'
    | (Throw msg, w') => (Throw msg, w')
    end.
(** [try { m } catch (err) { h err.message }] *)
Definition try_catch {A} (m : M A) (h : string -> M A) : M A :=
  fun w =>
    match m w with
    | (Ok a, w') => (Ok a, w')
    | (Throw msg, w') => h msg w'
    end.
Definition effect (f : World -> World) : M unit := fun w => (Ok tt, f w).
Definition get_world : M World := fun w => (Ok w, w).

Declare Scope async_scope.
Delimit Scope async_scope with async.
Notation "x <- m ;; k" := (bind m (fun x => k))
  (at level 100, m at next level, right associativity) : async_scope.
Notation "m ;;; k" := (bind m (fun _ => k))
  (at level 100, right associativity) : async_scope.
#[local] Open Scope async_scope.

(* ===================================================================== *)
(** ** The [GeoCache] collection ([models/GeoCache.js])                   *)
(* ===================================================================== *)

Module GeoCache.

(** [{ $inc: { hitCount: 1 }, $set: { lastAccessedAt: now } }] *)
Definition touch (now : Z) (r : CacheRecord) : CacheRecord :=
  {| rec_cacheKey := rec_cacheKey r;
     latitude := latitude r;
     longitude := longitude r;
     location := location r;
     rawResponse := rawResponse r;
     createdAt := createdAt r;
     hitCount := hitCount r + 1;
     lastAccessedAt := now |}.

(** [findOneAndUpdate({ cacheKey }, { $inc, $set }, { new: true })]:
    the updated document, or [null] when there is none. *)
Definition findOneAndTouch (key : string) (now : Z)
    (s : gmap string CacheRecord) : option CacheRecord * gmap string CacheRecord :=
  match s !! key with
  | Some r => let r' := touch now r in (Some r', <[key := r']> s)
  | None => (None, s)
  end.

(** The update document [{ cacheKey, latitude, longitude, location,
    rawResponse, hitCount: 1, lastAccessedAt }] has no update operator:
    its keys are applied as a [$set].  Fields it does not name
    ([createdAt]) keep their value in a document that exists, and take
    the schema default ([Date.now]) in the one an upsert inserts. *)
Definition written (key : string) (lat lng : float) (loc : Location)
    (raw : RawResult) (now created : Z) (old : option CacheRecord) : CacheRecord :=
  {| rec_cacheKey := key;
     latitude := lat;
     longitude := lng;
     location := loc;
     rawResponse := raw;
     createdAt := match old with Some r => createdAt r | None => created end;
     hitCount := 1;
     lastAccessedAt := now |}.

(** [findOneAndUpdate({ cacheKey }, { ... }, { upsert: true, new: true })] *)
Definition findOneAndUpsert (key : string) (lat lng : float) (loc : Location)
    (raw : RawResult) (now created : Z)
    (s : gmap string CacheRecord) : gmap string CacheRecord :=
  <[key := written key lat lng loc raw now created (s !! key)]> s.

(** [{ lastAccessedAt: { $lt: cutoff } }] *)
Definition olderThan (cutoff : Z) (kr : string * CacheRecord) : Prop :=
  lastAccessedAt kr.2 < cutoff.

#[global] Instance olderThan_dec cutoff kr : Decision (olderThan cutoff kr).
Proof. unfold olderThan. apply _. Defined.

(** [deleteMany({ lastAccessedAt: { $lt: cutoff } })]: what is left,
    and [deletedCount]. *)
Definition deleteMany (cutoff : Z) (s : gmap string CacheRecord)
    : gmap string CacheRecord * Z :=
  (filter (fun kr => ¬ olderThan cutoff kr) s,
   Z.of_nat (size (filter (olderThan cutoff) s))).

End GeoCache.

(* ===================================================================== *)
(** ** [GeocoderService] ([geocoderService.js])                           *)
(* ===================================================================== *)

Module Service.

(** [generateCacheKey(lat, lng)] *)
Definition generateCacheKey (lat lng : float) : string :=
  let roundedLat := (JS.Math_round (lat * 1000) / 1000)%float in
  let roundedLng := (JS.Math_round (lng * 1000) / 1000)%float in
  JS.NumberToString roundedLat ++ "," ++ JS.NumberToString roundedLng.

(** [lookupLocal(lat, lng)]: the promise rejects with the resolver's
    error and resolves with its result. *)
Definition lookupLocal (E : CallEnv) (lat lng : float) : M RawResult :=
  effect (emit (Lookup lat lng)) ;;;
  match lookUp E lat lng with
  | inl err => throw err
  | inr result => ret result
  end.

Definition countries : list (string * string) :=
  [ ("IN", "India"); ("US", "United States"); ("GB", "United Kingdom");
    ("CA", "Canada"); ("AU", "Australia"); ("DE", "Germany");
    ("FR", "France"); ("JP", "Japan"); ("CN", "China"); ("BR", "Brazil") ].

Fixpoint table_get {A} (table : list (string * A)) (code : string) : option A :=
  match table with
  | [] => None
  | (c, n) :: rest => if String.eqb c code then Some n else table_get rest code
  end.

(** The properties an object literal inherits from [Object.prototype]:
    eleven built-in functions and, under ["__proto__"], the prototype
    object itself. *)
Definition objectPrototype : list (string * NameVal) :=
  [ ("constructor", NameFun "Object");
    ("__defineGetter__", NameFun "__defineGetter__");
    ("__defineSetter__", NameFun "__defineSetter__");
    ("hasOwnProperty", NameFun "hasOwnProperty");
    ("__lookupGetter__", NameFun "__lookupGetter__");
    ("__lookupSetter__", NameFun "__lookupSetter__");
    ("isPrototypeOf", NameFun "isPrototypeOf");
    ("propertyIsEnumerable", NameFun "propertyIsEnumerable");
    ("toString", NameFun "toString");
    ("valueOf", NameFun "valueOf");
    ("__proto__", NameObj);
    ("toLocaleString", NameFun "toLocaleString") ].

(** [table[code]] for an object literal [table]: its own property, or
    else the one it inherits. *)
Definition property (table : list (string * string)) (code : string) : option NameVal :=
  match table_get table code with
  | Some n => Some (NameStr n)
  | None => table_get objectPrototype code
  end.

(** [getCountryName(code)]: [countries[code] || code].  An [undefined]
    code is no key of the table and comes back as it is. *)
Definition getCountryName (code : option string) : option NameVal :=
  match code with
  | None => None
  | Some c =>
      match property countries c with
      | Some v => if truthy v then Some v else Some (NameStr c)
      | None => Some (NameStr c)
      end
  end.

(** [data.adminNCode?.name || data.adminNCode || ''] *)
Definition adminName (code : option AdminCode) : NameVal :=
  match code with
  | None => NameStr ""
  | Some (AdminStr c) => NameStr c
  | Some (AdminObj (Some n)) => if String.eqb n "" then NameObj else NameStr n
  | Some (AdminObj None) => NameObj
  end.

Definition countryName_truthy (c : option NameVal) : bool :=
  match c with
  | Some v => truthy v
  | None => false
  end.

(** The [parts] array of [formatLocation], before [filter(Boolean)]. *)
Definition displayParts (nm : string) (a1 a2 : NameVal) (cn : option NameVal)
    : list NameVal :=
  [NameStr nm]
  ++ (if truthy a2 && differs a2 nm then [a2] else [])
  ++ (if truthy a1 then [a1] else [])
  ++ (if countryName_truthy cn then [default (NameStr "") cn] else []).

(** [formatLocation(rawResult)] *)
Definition formatLocation (rawResult : RawResult) : option Location :=
  match rawResult with
  | Some ((data :: _) :: _) =>
      let nm := default "" (raw_name data) in
      let a1 := adminName (raw_admin1Code data) in
      let a2 := adminName (raw_admin2Code data) in
      let cn := getCountryName (raw_countryCode data) in
      Some {| name := nm;
              adminName1 := a1;
              adminName2 := a2;
              countryCode := default "" (raw_countryCode data);
              countryName := cn;
              population := default 0 (raw_population data);
              featureCode := default "" (raw_featureCode data);
              displayName :=
                join ", " (to_str <$> List.filter truthy (displayParts nm a1 a2 cn)) |}
  | _ => None
  end.

Definition notInitialized : string := "Geocoder not initialized. Call init() first.".

(** [{ ...cached.location, source: 'cache', cacheKey, hitCount: cached.hitCount }] *)
Definition hitResult (key : string) (cached : CacheRecord) : LocationResult :=
  {| payload := Resolved (location cached); source := FromCache;
     cacheKey := key; res_hitCount := Some (hitCount cached) |}.

(** [{ name: 'Unknown', displayName: 'Unknown Location', source: 'local', cacheKey }] *)
Definition unknownResult (key : string) : LocationResult :=
  {| payload := Unknown; source := FromLocal;
     cacheKey := key; res_hitCount := None |}.

(** [{ ...location, source: 'local', cacheKey }] *)
Definition localResult (key : string) (loc : Location) : LocationResult :=
  {| payload := Resolved loc; source := FromLocal;
     cacheKey := key; res_hitCount := None |}.

(** Step 1 of [getLocation]: the cache read, with its [try]/[catch]. *)
Definition cacheLookup (E : CallEnv) (key : string) : M (option LocationResult) :=
  try_catch
    (effect (emit (CacheRead key)) ;;;
     match readError E with
     | Some err => throw err
     | None =>
         w <- get_world ;;
         let (cached, s') := GeoCache.findOneAndTouch key (tRead E) (store w) in
         effect (set_store (fun _ => s')) ;;;
         match cached with
         | Some r => ret (Some (hitResult key r))
         | None => ret None
         end
     end)
    (fun _ => ret None).

(** Step 3 of [getLocation]: the cache write, with its [try]/[catch]. *)
Definition cacheSave (E : CallEnv) (key : string) (lat lng : float)
    (loc : Location) (raw : RawResult) : M unit :=
  try_catch
    (effect (emit (CacheWrite key)) ;;;
     match writeError E with
     | Some err => throw err
     | None =>
         effect (set_store
                   (GeoCache.findOneAndUpsert key lat lng loc raw (tWrite E) (tCreate E)))
     end)
    (fun _ => ret tt).

(** [getLocation(lat, lng, skipCache = false)] *)
Definition getLocation (E : CallEnv) (lat lng : float) (skipCache : bool)
    : M LocationResult :=
  w <- get_world ;;
  if negb (isInitialized w) then throw notInitialized
  else
    let key := generateCacheKey lat lng in
    hit <- (if negb skipCache then cacheLookup E key else ret None) ;;
    match hit with
    | Some result => ret result
    | None =>
        rawResult <- lookupLocal E lat lng ;;
        match formatLocation rawResult with
        | None => ret (unknownResult key)
        | Some loc =>
            cacheSave E key lat lng loc rawResult ;;;
            ret (localResult key loc)
        end
    end.

(** [getLocations(coordinates)]: entry [i] of the array is resolved
    under the environment [E i]. *)
Fixpoint getLocations_from (E : nat -> CallEnv) (i : nat) (coordinates : list Coord)
    : M (list BatchEntry) :=
  match coordinates with
  | [] => ret []
  | coord :: rest =>
      entry <- try_catch
                 (result <- getLocation (E i) (lat coord) (lng coord) false ;;
                  ret {| be_coord := coord; be_location := Some result;
                         be_error := None |})
                 (fun msg =>
                    ret {| be_coord := coord; be_location := None;
                           be_error := Some msg |}) ;;
      results <- getLocations_from E (S i) rest ;;
      ret (entry :: results)
  end.

Definition getLocations (E : nat -> CallEnv) (coordinates : list Coord)
    : M (list BatchEntry) :=
  getLocations_from E 0 coordinates.

(** What the environment decides during one [clearOldCache] call: what
    the clock shows, whether the round trip to the collection fails, and
    the message of the error with which Mongoose refuses a filter whose
    date is an Invalid Date. *)
Record SweepEnv := {
  now : Z;
  deleteError : option string;
  castError : string
}.

Definition msPerDay : Z := 86400000.

Section Calendar.

(** The host's time zone and calendar.  [LocalTZA t isUTC] is the offset
    of local time from UTC, in milliseconds, at the time value [t], which
    is a UTC time value if [isUTC] holds and a local one otherwise;
    [monthStart d] is the day number of the first day of the month that
    day [d] falls in. *)
Variable LocalTZA : Z -> bool -> Z.
Variable monthStart : Z -> Z.

Definition Day (t : Z) : Z := t / msPerDay.
Definition TimeWithinDay (t : Z) : Z := t mod msPerDay.
Definition LocalTime (t : Z) : Z := t + LocalTZA t true.
Definition UTC (t : Z) : Z := t - LocalTZA t false.

(** [MakeDay(YearFromTime(t), MonthFromTime(t), dt)]: day [dt] of the
    month the local time value [t] is in, counted on from the first of
    that month whatever the sign and size of [dt]. *)
Definition MakeDay (t dt : Z) : Z := monthStart (Day t) + dt - 1.

Definition MakeDate (day time : Z) : Z := day * msPerDay + time.

(** [TimeClip(time)]: no time value ([NaN]) beyond 8.64e15 ms from the
    epoch. *)
Definition TimeClip (time : Z) : option Z :=
  if Z.abs time <=? 8640000000000000 then Some time else None.

(** [date.getDate()]: the day of the month, in local time. *)
Definition getDate (t : Z) : Z :=
  let d := Day (LocalTime t) in d - monthStart d + 1.

(** [date.setDate(dt)]: the time value the date has afterwards, at the
    same local time of day; [None] is the Invalid Date. *)
Definition setDate (t dt : Z) : option Z :=
  let lt := LocalTime t in
  let newDate := MakeDate (MakeDay lt dt) (TimeWithinDay lt) in
  TimeClip (UTC newDate).

(** [clearOldCache(daysOld = 90)]: the filter [{ lastAccessedAt: { $lt:
    cutoffDate } }] is cast before it is sent, and an Invalid Date fails
    the cast. *)
Definition clearOldCache (E : SweepEnv) (daysOld : option Z) : M Z :=
  let days := default 90 daysOld in
  match setDate (now E) (getDate (now E) - days) with
  | None => throw (castError E)
  | Some cutoffDate =>
      match deleteError E with
      | Some err => throw err
      | None =>
          w <- get_world ;;
          let (s', deletedCount) := GeoCache.deleteMany cutoffDate (store w) in
          effect (set_store (fun _ => s')) ;;;
          ret deletedCount
      end
  end.

End Calendar.

End Service.

(* ===================================================================== *)
(** ** Vocabulary of the statements                                      *)
(* ===================================================================== *)

Section Vocabulary.
Import Service.

(** The world after the cache write of step 3. *)
Definition afterSave (E : CallEnv) (key : string) (lat lng : float)
    (loc : Location) (raw : RawResult) (w : World) : World :=
  let w1 := emit (CacheWrite key) w in
  match writeError E with
  | Some _ => w1
  | None =>
      set_store (GeoCache.findOneAndUpsert key lat lng loc raw (tWrite E) (tCreate E)) w1
  end.

(** Steps 2 and 3, from the world [w] step 1 left. *)
Definition freshOutcome (E : CallEnv) (lat lng : float) (w : World)
    : Outcome LocationResult * World :=
  let key := generateCacheKey lat lng in
  let w2 := emit (Lookup lat lng) w in
  match lookUp E lat lng with
  | inl err => (Throw err, w2)
  | inr raw =>
      match formatLocation raw with
      | None => (Ok (unknownResult key), w2)
      | Some loc => (Ok (localResult key loc), afterSave E key lat lng loc raw w2)
      end
  end.

(** The scenario of the specification: one candidate for Gorakhpur, a
    collection that answers, an empty cache. *)
Definition gorakhpur : Place :=
  {| raw_name := Some "Gorakhpur";
     raw_admin1Code := Some (AdminObj (Some "Uttar Pradesh"));
     raw_admin2Code := Some (AdminObj (Some "Gorakhpur"));
     raw_countryCode := Some "IN";
     raw_population := None;
     raw_featureCode := None |}.

Definition gorakhpurLocation : Location :=
  {| name := "Gorakhpur";
     adminName1 := NameStr "Uttar Pradesh";
     adminName2 := NameStr "Gorakhpur";
     countryCode := "IN";
     countryName := Some (NameStr "India");
     population := 0;
     featureCode := "";
     displayName := "Gorakhpur, Uttar Pradesh, India" |}.

Definition quietEnv (answer : string + RawResult) (t : Z) : CallEnv :=
  {| readError := None; tRead := t;
     lookUp := fun _ _ => answer;
     writeError := None; tWrite := t + 1; tCreate := t + 2 |}.

Definition readyWorld : World :=
  {| isInitialized := true; store := ∅; log := [] |}.



(** One resolve call: what the environment does during it, and the
    arguments. *)
Record Call := {
  call_env : CallEnv;
  call_lat : float;
  call_lng : float;
  call_skipCache : bool
}.

(** The world a call leaves, and the world a sequence of calls leaves. *)
Definition step (c : Call) (w : World) : World :=
  snd (getLocation (call_env c) (call_lat c) (call_lng c) (call_skipCache c) w).

Definition run (calls : list Call) (w : World) : World :=
  fold_left (fun w c => step c w) calls w.

(** Three calls for Gorakhpur's coordinates: a first resolve, a repeat,
    and a re-resolution that bypasses the cache. *)
Definition gorakhpurCall (skipCache : bool) (t : Z) : Call :=
  {| call_env := quietEnv (inr (Some [[gorakhpur]])) t;
     call_lat := 26.7606; call_lng := 83.3732;
     call_skipCache := skipCache |}.

Definition afterFirst : World := step (gorakhpurCall false 1000) readyWorld.
Definition afterRepeat : World := step (gorakhpurCall false 2000) afterFirst.
Definition afterBypass : World := step (gorakhpurCall true 3000) afterRepeat.


(** The element [getLocations] pushes for one coordinate, from the
    outcome of its [getLocation] call. *)
Definition entryOf (coord : Coord) (o : Outcome LocationResult) : BatchEntry :=
  match o with
  | Ok result =>
      {| be_coord := coord; be_location := Some result; be_error := None |}
  | Throw msg =>
      {| be_coord := coord; be_location := None; be_error := Some msg |}
  end.

Definition keyOf (coord : Coord) : string :=
  generateCacheKey (lat coord) (lng coord).

(** The keys of the cache reads of a trace, in order. *)
Definition cacheReads (trace : list Event) : list string :=
  omap (fun ev => match ev with CacheRead k => Some k | _ => None end) trace.

(** The world in which entry [i] of a batch is resolved. *)
Definition worldBefore (E : nat -> CallEnv) (coordinates : list Coord)
    (w : World) (i : nat) : World :=
  snd (getLocations E (take i coordinates) w).

Definition sweepEnv (t : Z) : SweepEnv :=
  {| now := t; deleteError := None; castError := "Cast to date failed" |}.

(** A host that is five hours behind UTC before the instant [change]
    and four hours behind from it on (a change to daylight saving time),
    with months of thirty days. *)
Definition dstZone (change : Z) (t : Z) (isUTC : bool) : Z :=
  if (if isUTC then t else t + 18000000) <? change then -18000000 else -14400000.

Definition thirtyDayMonths (d : Z) : Z := d - d mod 30.

(** A record last accessed at [t]. *)
Definition recordAt (key : string) (t : Z) : CacheRecord :=
  {| rec_cacheKey := key; latitude := 0; longitude := 0;
     location := gorakhpurLocation; rawResponse := None;
     createdAt := 0; hitCount := 1; lastAccessedAt := t |}.


(** A candidate the resolver's data gives no country code (and nothing
    but a name). *)
Definition placeWithoutCountry : Place :=
  {| raw_name := Some "Null Island";
     raw_admin1Code := None;
     raw_admin2Code := None;
     raw_countryCode := None;
     raw_population := None;
     raw_featureCode := None |}.

(** [Math.round(x * 1000) / 1000] *)
Definition round3 (x : float) : float :=
  (JS.Math_round (x * 1000) / 1000)%float.

(** *** Fixed-decimal numerals

    A numeral in fixed decimal notation with at most three fraction
    digits: an optional minus sign, one or more digits, and optionally a
    point followed by one to three digits. *)

Definition is_digit (c : ascii) : bool :=
  let n := nat_of_ascii c in (48 <=? n)%nat && (n <=? 57)%nat.

Fixpoint all_digits (s : string) : bool :=
  match s with
  | EmptyString => true
  | String c s' => is_digit c && all_digits s'
  end.

(** The digits before the first point and, if there is a point, what
    follows it. *)
Fixpoint split_point (s : string) : string * option string :=
  match s with
  | EmptyString => (EmptyString, None)
  | String c s' =>
      if Ascii.eqb c "."%char then (EmptyString, Some s')
      else let (a, b) := split_point s' in (String c a, b)
  end.

Definition unsigned_fixed (s : string) : bool :=
  match split_point s with
  | (int, None) => negb (String.eqb int "") && all_digits int
  | (int, Some frac) =>
      negb (String.eqb int "") && all_digits int &&
      all_digits frac && (1 <=? String.length frac)%nat && (String.length frac <=? 3)%nat
  end.

Definition fixed_decimal (s : string) : bool :=
  match s with
  | String "-"%char s' => unsigned_fixed s'
  | _ => unsigned_fixed s
  end.

(** Both components of a key ["<a>,<b>"] are such numerals. *)
Fixpoint split_comma (s : string) : string * option string :=
  match s with
  | EmptyString => (EmptyString, None)
  | String c s' =>
      if Ascii.eqb c ","%char then (EmptyString, Some s')
      else let (a, b) := split_comma s' in (String c a, b)
  end.

Definition fixed_key (key : string) : bool :=
  match split_comma key with
  | (a, Some b) => fixed_decimal a && fixed_decimal b
  | (_, None) => false
  end.


(** *** The grid of thousandths

    [of_int n] is the Number with the integer value [n] (exact for
    [|n| < 2^53]); a Number [y] has the integer value [n] when it is
    [of_int n], or is the negative zero and [n] is 0. *)

Definition of_int (n : Z) : float :=
  match n with
  | Z0 => zero
  | Z.pos p => SF2Prim (S754_finite false p 0)
  | Z.neg p => SF2Prim (S754_finite true p 0)
  end.

Definition has_int_value (y : float) (n : Z) : Prop :=
  y = of_int n \/ (n = 0 /\ y = neg_zero).

(** The digits of a number of thousandths [0 < f < 1000] after the
    point: three digits, less the trailing zeros. *)
Definition fraction3 (f : Z) : string :=
  if f mod 100 =? 0 then JS.digits 1 (f / 100) ""
  else if f mod 10 =? 0 then JS.digits 2 (f / 10) ""
  else JS.digits 3 f "".

(** [n / 1000] in fixed decimal notation: sign, integer part, and the
    fraction if there is one. *)
Definition fixed3 (n : Z) : string :=
  let a := Z.abs n in
  (if n <? 0 then "-" else "") ++
  JS.nat_dec (a / 1000) ++
  (if a mod 1000 =? 0 then "" else "." ++ fraction3 (a mod 1000)).

(** The integer part and the fraction of [p / 1000], as [fixed3] prints
    them. *)
Definition fixed3_body (p : Z) : string :=
  JS.nat_dec (p / 1000) ++
  (if p mod 1000 =? 0 then "" else "." ++ fraction3 (p mod 1000)).

(** *** The rounding cell of a coordinate

    The product [x * 1000] is a Number with the exact value
    [v = ± m * 2^e].  The coordinate [x] lies in the cell [n] of the
    grid of thousandths when [n - 1/2 <= v < n + 1/2]: [n] is the integer
    nearest to [v], the upper one of two that are equally near.  For a
    negative exponent (a product with a fraction part, as every product
    of magnitude below 2^52 that is not zero has) that reads
    [(2n - 1) * 2^(-e) <= ± 2m < (2n + 1) * 2^(-e)]. *)
Definition in_cell (x : float) (n : Z) : bool :=
  match Prim2SF (x * 1000) with
  | S754_zero _ => n =? 0
  | S754_finite s m e =>
      let v2 := 2 * (if s then Z.neg m else Z.pos m) in
      (e <? 0) && ((2 * n - 1) * 2 ^ (- e) <=? v2) && (v2 <? (2 * n + 1) * 2 ^ (- e))
  | _ => false
  end.

(** *** Reading a fixed-decimal numeral

    The number of thousandths a numeral ["-12.34"] denotes: the digits
    before the point count thousands, the one to three digits after it
    tenths, hundredths and thousandths. *)

Definition digit_val (c : ascii) : Z := Z.of_nat (nat_of_ascii c) - 48.

Fixpoint num_from (acc : Z) (s : string) : Z :=
  match s with
  | EmptyString => acc
  | String c s' => num_from (10 * acc + digit_val c) s'
  end.

Definition unsigned_thousandths (s : string) : Z :=
  let (int, frac) := split_point s in
  1000 * num_from 0 int +
  match frac with
  | None => 0
  | Some f => num_from 0 f * 10 ^ (3 - Z.of_nat (String.length f))
  end.

Definition thousandths (s : string) : Z :=
  match s with
  | String "-"%char s' => - unsigned_thousandths s'
  | _ => unsigned_thousandths s
  end.

(** The two numbers of thousandths a key ["<a>,<b>"] denotes. *)
Definition cell_of_key (key : string) : option (Z * Z) :=
  match split_comma key with
  | (a, Some b) => Some (thousandths a, thousandths b)
  | (_, None) => None
  end.

End Vocabulary.

(** *** A certificate for the grid

    For [0 < |n| <= 180000] the theorems on the key need to know the
    binary64 number that the division [n / 1000] yields.  [Grid.cert n]
    checks, on the machine integers, the facts about that number which
    the proofs use; [Grid.certs] checks a range of [n] and of [- n]. *)

Module Grid.
Import PrimInt63 PrimInt63.PrimInt63Notations.

(** The number of decimal digits of [0 < p < 10^6]. *)
Definition digit_count (p : Z) : Z :=
  if p <? 10 then 1 else if p <? 100 then 2 else if p <? 1000 then 3
  else if p <? 10000 then 4 else if p <? 100000 then 5 else 6.

Definition is_pow10 (p : int) : bool :=
  PrimInt63.eqb p 1%uint63 || PrimInt63.eqb p 10%uint63 ||
  PrimInt63.eqb p 100%uint63 || PrimInt63.eqb p 1000%uint63 ||
  PrimInt63.eqb p 10000%uint63 || PrimInt63.eqb p 100000%uint63.

(** What the division [n / 1000] yields, checked on the machine
    integers: a normal number [m * 2^(se - 2154)] with a 53-bit [m],
    whose distance [1000 * m - |n| * 2^(2154 - se)] from [|n| / 1000]
    (scaled) is below half a unit, exact if [m] is the smallest
    mantissa, and not below zero if [|n|] is a power of ten. *)
Definition cert (n : Z) : bool :=
  let r := (of_int n / 1000)%float in
  let (f, se) := frshiftexp r in
  let m := normfr_mantissa f in
  let p := Uint63Axioms.of_Z (Z.abs n) in
  let sh := PrimInt63.sub 2154%uint63 se in
  let a := PrimInt63.mul 1000%uint63 m in
  let b := PrimInt63.lsl p sh in
  negb (is_nan r) && negb (is_zero r) && negb (is_infinity r) &&
  Bool.eqb (get_sign r) (n <? 0) &&
  PrimInt63.leb 4503599627370496%uint63 m &&
  PrimInt63.ltb m 9007199254740992%uint63 &&
  PrimInt63.leb 2092%uint63 se && PrimInt63.leb se 2109%uint63 &&
  PrimInt63.eqb (PrimInt63.lsr b sh) p &&
  PrimInt63.ltb b (PrimInt63.add a 500%uint63) &&
  PrimInt63.ltb a (PrimInt63.add b 500%uint63) &&
  (negb (PrimInt63.eqb m 4503599627370496%uint63) || PrimInt63.eqb a b) &&
  (negb (is_pow10 p) || PrimInt63.leb b a).

Fixpoint certs (fuel : nat) (n : Z) : bool :=
  match fuel with
  | O => true
  | S fuel' =>
      if cert n && cert (- n) then certs fuel' (n + 1) else false
  end.

End Grid.

(* ===================================================================== *)
(** * Properties                                                         *)
(* ===================================================================== *)

(* ===================================================================== *)
(** ** Running the async monad                                           *)
(* ===================================================================== *)

Lemma bind_ok {A B} (m : M A) (k : A -> M B) w a w' :
  m w = (Ok a, w') -> bind m k w = k a w'.
Proof. intros H. unfold bind. by rewrite H. Qed.

Lemma bind_throw {A B} (m : M A) (k : A -> M B) w msg w' :
  m w = (Throw msg, w') -> bind m k w = (Throw msg, w').
Proof. intros H. unfold bind. by rewrite H. Qed.

Lemma try_catch_ok {A} (m : M A) h w a w' :
  m w = (Ok a, w') -> try_catch m h w = (Ok a, w').
Proof. intros H. unfold try_catch. by rewrite H. Qed.

Lemma try_catch_throw {A} (m : M A) h w msg w' :
  m w = (Throw msg, w') -> try_catch m h w = h msg w'.
Proof. intros H. unfold try_catch. by rewrite H. Qed.

(* ===================================================================== *)
(** ** [formatLocation]                                                  *)
(* ===================================================================== *)

Section FormatLocation.
Import Service.

Lemma formatLocation_none rawResult :
  formatLocation rawResult = None <->
  rawResult = None \/ rawResult = Some [] \/ exists rest, rawResult = Some ([] :: rest).
Proof.
  split.
  - destruct rawResult as [[|[|d ds] rest]|]; cbn; intros H; try discriminate; eauto.
  - intros [-> | [-> | [rest ->]]]; reflexivity.
Qed.

(** The fields of the record built from the first candidate of the
    first rank. *)
Lemma formatLocation_fields data ds rest :
  exists loc,
    formatLocation (Some ((data :: ds) :: rest)) = Some loc /\
    name loc = default "" (raw_name data) /\
    adminName1 loc = adminName (raw_admin1Code data) /\
    adminName2 loc = adminName (raw_admin2Code data) /\
    countryCode loc = default "" (raw_countryCode data) /\
    countryName loc = getCountryName (raw_countryCode data) /\
    population loc = default 0 (raw_population data) /\
    featureCode loc = default "" (raw_featureCode data) /\
    displayName loc =
      join ", " (to_str <$> List.filter truthy
        (displayParts (name loc) (adminName1 loc) (adminName2 loc) (countryName loc))).
Proof. eexists. split; [reflexivity|]. cbn. repeat split. Qed.

(** Absent inputs: every string read with [|| ''] is empty, the
    population is 0. *)
Lemma formatLocation_defaults data ds rest loc :
  formatLocation (Some ((data :: ds) :: rest)) = Some loc ->
  (raw_name data = None -> name loc = "") /\
  (raw_admin1Code data = None -> adminName1 loc = NameStr "") /\
  (raw_admin2Code data = None -> adminName2 loc = NameStr "") /\
  (raw_countryCode data = None -> countryCode loc = "") /\
  (raw_featureCode data = None -> featureCode loc = "") /\
  (raw_population data = None -> population loc = 0).
Proof.
  intros [= <-]. cbn. repeat split; intros ->; reflexivity.
Qed.

(** The names of the country table and the values an object literal
    inherits are truthy. *)
Lemma countries_truthy code n :
  table_get countries code = Some n -> truthy (NameStr n) = true.
Proof.
  unfold countries. cbn [table_get].
  repeat (destruct (String.eqb _ code); [by intros [= <-]|]). done.
Qed.

Lemma objectPrototype_truthy code v :
  table_get objectPrototype code = Some v -> truthy v = true.
Proof.
  unfold objectPrototype. cbn [table_get].
  repeat (destruct (String.eqb _ code); [by intros [= <-]|]). done.
Qed.

(** The country name: the table's for a code the table has, the value
    inherited from [Object.prototype] for the name of one of its
    properties, and the code itself for any other string. *)
Lemma getCountryName_known code n :
  table_get countries code = Some n -> getCountryName (Some code) = Some (NameStr n).
Proof.
  intros H. unfold getCountryName, property. rewrite H.
  by rewrite (countries_truthy code n H).
Qed.

Lemma getCountryName_inherited code v :
  table_get countries code = None -> table_get objectPrototype code = Some v ->
  getCountryName (Some code) = Some v.
Proof.
  intros H Hv. unfold getCountryName, property. rewrite H, Hv.
  by rewrite (objectPrototype_truthy code v Hv).
Qed.

Lemma getCountryName_unknown code :
  table_get countries code = None -> table_get objectPrototype code = None ->
  getCountryName (Some code) = Some (NameStr code).
Proof. intros H Hv. unfold getCountryName, property. by rewrite H, Hv. Qed.

(** [parts.filter(Boolean)]: the name if it is not empty, then the
    second-level admin name if it is truthy and is not the name, then
    the first-level one if truthy, then the country name if truthy. *)
Lemma displayParts_filtered nm a1 a2 cn :
  List.filter truthy (displayParts nm a1 a2 cn) =
    ((if truthy (NameStr nm) then [NameStr nm] else [])
     ++ (if truthy a2 && differs a2 nm then [a2] else [])
     ++ (if truthy a1 then [a1] else [])
     ++ (if countryName_truthy cn then [default (NameStr "") cn] else []))%list.
Proof.
  unfold displayParts.
  rewrite !List.filter_app.
  assert (Hone : forall (b : bool) (v : NameVal), (b = true -> truthy v = true) ->
            List.filter truthy (if b then [v] else []) = if b then [v] else []).
  { intros [] v Hv; cbn; [by rewrite Hv|done]. }
  rewrite !Hone.
  - reflexivity.
  - destruct cn as [c|]; cbn; [|done]. by intros ->.
  - done.
  - by intros [H _]%andb_true_iff.
Qed.

End FormatLocation.

(* ===================================================================== *)
(** ** [getLocation], case by case                                       *)
(* ===================================================================== *)

Section GetLocation.
Import Service.


Lemma set_store_same w : set_store (fun _ => store w) w = w.
Proof. by destruct w. Qed.

Lemma getLocation_uninitialized E lat lng skipCache w :
  isInitialized w = false ->
  getLocation E lat lng skipCache w = (Throw notInitialized, w).
Proof. intros H. unfold getLocation, bind, get_world. by rewrite H. Qed.

Lemma cacheLookup_failed E key w err :
  readError E = Some err ->
  cacheLookup E key w = (Ok None, emit (CacheRead key) w).
Proof. intros H. unfold cacheLookup, try_catch, bind, effect. by rewrite H. Qed.

Lemma cacheLookup_miss E key w :
  readError E = None -> store w !! key = None ->
  cacheLookup E key w = (Ok None, emit (CacheRead key) w).
Proof.
  intros H Hs. unfold cacheLookup, try_catch, bind, effect, get_world.
  rewrite H. unfold GeoCache.findOneAndTouch. cbn. rewrite Hs. cbn.
  by destruct w.
Qed.

Lemma cacheLookup_hit E key w r :
  readError E = None -> store w !! key = Some r ->
  cacheLookup E key w =
    (Ok (Some (hitResult key (GeoCache.touch (tRead E) r))),
     set_store (insert key (GeoCache.touch (tRead E) r)) (emit (CacheRead key) w)).
Proof.
  intros H Hs. unfold cacheLookup, try_catch, bind, effect, get_world.
  rewrite H. unfold GeoCache.findOneAndTouch. cbn. by rewrite Hs.
Qed.

Lemma fresh_run E lat lng w :
  (rawResult <- lookupLocal E lat lng ;;
   match formatLocation rawResult with
   | None => ret (unknownResult (generateCacheKey lat lng))
   | Some loc =>
       cacheSave E (generateCacheKey lat lng) lat lng loc rawResult ;;;
       ret (localResult (generateCacheKey lat lng) loc)
   end) w = freshOutcome E lat lng w.
Proof.
  unfold freshOutcome, lookupLocal, bind, effect.
  destruct (lookUp E lat lng) as [err|raw]; [done|]. cbn.
  destruct (formatLocation raw) as [loc|]; [|done].
  unfold cacheSave, afterSave, try_catch, bind, effect.
  by destruct (writeError E).
Qed.

(** A call that bypasses the cache. *)
Lemma getLocation_skip E lat lng w :
  isInitialized w = true ->
  getLocation E lat lng true w = freshOutcome E lat lng w.
Proof.
  intros Hi. unfold getLocation. unfold bind at 1. unfold get_world at 1.
  rewrite Hi. cbn [negb]. unfold bind at 1. unfold ret at 1.
  by apply fresh_run.
Qed.

(** A call whose cache read fails or finds nothing. *)
Lemma getLocation_miss E lat lng w :
  isInitialized w = true ->
  is_Some (readError E) \/ store w !! generateCacheKey lat lng = None ->
  getLocation E lat lng false w =
    freshOutcome E lat lng (emit (CacheRead (generateCacheKey lat lng)) w).
Proof.
  intros Hi Hmiss. unfold getLocation. unfold bind at 1. unfold get_world at 1.
  rewrite Hi. cbn [negb].
  assert (cacheLookup E (generateCacheKey lat lng) w =
          (Ok None, emit (CacheRead (generateCacheKey lat lng)) w)) as Hl.
  { destruct (readError E) as [err|] eqn:He.
    - by eapply cacheLookup_failed.
    - destruct Hmiss as [[? [=]]|Hs]. by apply cacheLookup_miss. }
  rewrite (bind_ok _ _ _ _ _ Hl). by apply fresh_run.
Qed.

(** A call whose cache read finds the record. *)
Lemma getLocation_hit E lat lng w r :
  isInitialized w = true ->
  readError E = None ->
  store w !! generateCacheKey lat lng = Some r ->
  getLocation E lat lng false w =
    (Ok (hitResult (generateCacheKey lat lng) (GeoCache.touch (tRead E) r)),
     set_store (insert (generateCacheKey lat lng) (GeoCache.touch (tRead E) r))
               (emit (CacheRead (generateCacheKey lat lng)) w)).
Proof.
  intros Hi He Hs. unfold getLocation. unfold bind at 1. unfold get_world at 1.
  rewrite Hi. cbn [negb].
  by rewrite (bind_ok _ _ _ _ _ (cacheLookup_hit _ _ _ _ He Hs)).
Qed.

End GetLocation.

(* ===================================================================== *)
(** ** Cache-aside resolution: hit after miss, unknown results, failures  *)
(* ===================================================================== *)

Section Resolution.
Import Service.

Lemma afterSave_store_ok E key lat lng loc raw w :
  writeError E = None ->
  store (afterSave E key lat lng loc raw w) =
    <[key := GeoCache.written key lat lng loc raw (tWrite E) (tCreate E) (store w !! key)]>
      (store w).
Proof. intros H. unfold afterSave. by rewrite H. Qed.

Lemma afterSave_store_failed E key lat lng loc raw w :
  is_Some (writeError E) ->
  store (afterSave E key lat lng loc raw w) = store w.
Proof. intros [err H]. unfold afterSave. by rewrite H. Qed.

Lemma afterSave_initialized E key lat lng loc raw w :
  isInitialized (afterSave E key lat lng loc raw w) = isInitialized w.
Proof. unfold afterSave. by destruct (writeError E). Qed.

Lemma afterSave_log E key lat lng loc raw w :
  log (afterSave E key lat lng loc raw w) = (log w ++ [CacheWrite key])%list.
Proof. unfold afterSave. by destruct (writeError E). Qed.


End Resolution.

Section CacheAside.
Import Service.

(** C3. After one resolve on a cache that holds nothing for the key,
    with a resolver result that [formatLocation] accepts and a collection
    that takes the write, the first call answers from the resolver
    (source "local", no hit count) and a second resolve of the same
    coordinates, its cache read succeeding, answers from the cache:
    source "cache", [hitCount] 2, the same key, the same location fields
    and so the same display name.  For (26.7606, 83.3732) and the
    candidate Gorakhpur / Uttar Pradesh / Gorakhpur / IN the first call
    yields "Gorakhpur, Uttar Pradesh, India", "local", "26.761,83.373",
    and the repeat yields the same display name from the cache with
    [hitCount] 2. *)
Theorem cache_hit_after_first_resolve :
  (forall (E1 E2 : CallEnv) (lat lng : float) (w : World)
          (raw : RawResult) (loc : Location),
      isInitialized w = true ->
      store w !! generateCacheKey lat lng = None ->
      lookUp E1 lat lng = inr raw ->
      formatLocation raw = Some loc ->
      writeError E1 = None ->
      readError E2 = None ->
      let first := getLocation E1 lat lng false w in
      let second := getLocation E2 lat lng false (snd first) in
      fst first = Ok (localResult (generateCacheKey lat lng) loc) /\
      exists r2,
        fst second = Ok r2 /\
        source r2 = FromCache /\
        res_hitCount r2 = Some 2 /\
        cacheKey r2 = generateCacheKey lat lng /\
        payload r2 = Resolved loc /\
        res_displayName r2 = displayName loc) /\
  (let E := quietEnv (inr (Some [[gorakhpur]])) 1000 in
   let first := getLocation E 26.7606 83.3732 false readyWorld in
   let second := getLocation E 26.7606 83.3732 false (snd first) in
   fst first =
     Ok {| payload := Resolved gorakhpurLocation; source := FromLocal;
           cacheKey := "26.761,83.373"; res_hitCount := None |} /\
   fst second =
     Ok {| payload := Resolved gorakhpurLocation; source := FromCache;
           cacheKey := "26.761,83.373"; res_hitCount := Some 2 |} /\
   displayName gorakhpurLocation = "Gorakhpur, Uttar Pradesh, India").
Proof.
  split.
  - intros E1 E2 lat lng w raw loc Hi Hs Hl Hf Hw Hr first second.
    set (key := generateCacheKey lat lng) in *.
    assert (Hfirst : first =
              (Ok (localResult key loc),
               afterSave E1 key lat lng loc raw
                 (emit (Lookup lat lng) (emit (CacheRead key) w)))).
    { subst first. rewrite getLocation_miss by auto.
      unfold freshOutcome. fold key. by rewrite Hl, Hf. }
    split; [by rewrite Hfirst|].
    subst second. rewrite Hfirst. cbn [snd].
    rewrite (getLocation_hit E2 lat lng _
               (GeoCache.written key lat lng loc raw (tWrite E1) (tCreate E1) None)).
    + eexists. split; [reflexivity|]. cbn. by repeat split.
    + by rewrite afterSave_initialized.
    + done.
    + fold key. rewrite afterSave_store_ok by done. cbn.
      rewrite lookup_insert_eq. by rewrite Hs.
  - vm_compute. by repeat split.
Qed.

Lemma cache_hit_after_first_resolve_witness :
  let E := quietEnv (inr (Some [[gorakhpur]])) 1000 in
  let first := getLocation E 26.7606 83.3732 false readyWorld in
  let second := getLocation E 26.7606 83.3732 false (snd first) in
  fst first = Ok (localResult (generateCacheKey 26.7606 83.3732) gorakhpurLocation) /\
  exists r2,
    fst second = Ok r2 /\
    source r2 = FromCache /\
    res_hitCount r2 = Some 2 /\
    cacheKey r2 = generateCacheKey 26.7606 83.3732 /\
    payload r2 = Resolved gorakhpurLocation /\
    res_displayName r2 = displayName gorakhpurLocation.
Proof.
  apply (proj1 cache_hit_after_first_resolve
           (quietEnv (inr (Some [[gorakhpur]])) 1000)
           (quietEnv (inr (Some [[gorakhpur]])) 1000)
           26.7606%float 83.3732%float readyWorld
           (Some [[gorakhpur]]) gorakhpurLocation);
    reflexivity.
Defined.

Lemma freshOutcome_log E lat lng w :
  exists tail, log (snd (freshOutcome E lat lng w)) = (log w ++ Lookup lat lng :: tail)%list.
Proof.
  unfold freshOutcome.
  destruct (lookUp E lat lng) as [err|raw]; [by exists []|].
  destruct (formatLocation raw) as [loc|]; [|by exists []].
  exists [CacheWrite (generateCacheKey lat lng)]. cbn [snd].
  rewrite afterSave_log. cbn. by rewrite <- app_assoc.
Qed.

Lemma freshOutcome_initialized E lat lng w :
  isInitialized (snd (freshOutcome E lat lng w)) = isInitialized w.
Proof.
  unfold freshOutcome.
  destruct (lookUp E lat lng) as [err|raw]; [done|].
  destruct (formatLocation raw) as [loc|]; [|done].
  cbn [snd]. by rewrite afterSave_initialized.
Qed.

(** What step 1 leaves when it does not return: the world itself when
    the cache is bypassed, the world with the read recorded otherwise. *)
Lemma getLocation_no_hit E lat lng skipCache w :
  isInitialized w = true ->
  skipCache = true \/ is_Some (readError E) \/
    store w !! generateCacheKey lat lng = None ->
  getLocation E lat lng skipCache w =
    freshOutcome E lat lng
      (if skipCache then w else emit (CacheRead (generateCacheKey lat lng)) w).
Proof.
  intros Hi H. destruct skipCache.
  - by apply getLocation_skip.
  - apply getLocation_miss; [done|]. destruct H as [[=]|H]; done.
Qed.

(** C4. When the resolver returns no candidate for a key the cache does
    not hold, resolve returns the placeholder (name "Unknown", display
    name "Unknown Location", source "local", the key), the collection is
    left as it was and no write is attempted on it; so the key is still
    absent, and a following resolve of the same coordinates calls the
    resolver again. *)
Theorem unknown_is_not_cached
    (E : CallEnv) (lat lng : float) (skipCache : bool) (w : World) (raw : RawResult) :
  isInitialized w = true ->
  store w !! generateCacheKey lat lng = None ->
  lookUp E lat lng = inr raw ->
  formatLocation raw = None ->
  let key := generateCacheKey lat lng in
  let call := getLocation E lat lng skipCache w in
  fst call = Ok (unknownResult key) /\
  (res_name (unknownResult key) = "Unknown" /\
   res_displayName (unknownResult key) = "Unknown Location" /\
   source_str (source (unknownResult key)) = "local" /\
   cacheKey (unknownResult key) = key) /\
  store (snd call) = store w /\
  log (snd call) =
    (log w ++ (if skipCache then [] else [CacheRead key]) ++ [Lookup lat lng])%list /\
  store (snd call) !! key = None /\
  forall (E2 : CallEnv) (skip2 : bool),
    exists tail,
      log (snd (getLocation E2 lat lng skip2 (snd call))) =
        (log (snd call) ++ (if skip2 then [] else [CacheRead key])
           ++ Lookup lat lng :: tail)%list.
Proof.
  intros Hi Hs Hl Hf key call.
  assert (Hcall : call =
            (Ok (unknownResult key),
             emit (Lookup lat lng) (if skipCache then w else emit (CacheRead key) w))).
  { subst call. rewrite getLocation_no_hit by auto.
    unfold freshOutcome. fold key. by rewrite Hl, Hf. }
  rewrite Hcall. cbn [fst snd].
  assert (Hstore : store (emit (Lookup lat lng)
                     (if skipCache then w else emit (CacheRead key) w)) = store w).
  { by destruct skipCache. }
  split; [done|]. split; [done|]. split; [done|].
  split; [destruct skipCache; cbn; by rewrite <- ?app_assoc|].
  split; [by rewrite Hstore|].
  intros E2 skip2.
  rewrite getLocation_no_hit.
  - destruct (freshOutcome_log E2 lat lng
                (if skip2
                 then emit (Lookup lat lng) (if skipCache then w else emit (CacheRead key) w)
                 else emit (CacheRead (generateCacheKey lat lng))
                        (emit (Lookup lat lng)
                           (if skipCache then w else emit (CacheRead key) w))))
      as [tail Ht].
    exists tail. rewrite Ht. destruct skip2; cbn; by rewrite <- ?app_assoc.
  - by destruct skipCache.
  - right. right. fold key. by rewrite Hstore.
Qed.

Lemma unknown_is_not_cached_witness :
  let E := quietEnv (inr (Some [[]])) 1000 in
  let key := generateCacheKey 26.7606 83.3732 in
  let call := getLocation E 26.7606 83.3732 false readyWorld in
  fst call = Ok (unknownResult key) /\
  (res_name (unknownResult key) = "Unknown" /\
   res_displayName (unknownResult key) = "Unknown Location" /\
   source_str (source (unknownResult key)) = "local" /\
   cacheKey (unknownResult key) = key) /\
  store (snd call) = store readyWorld /\
  log (snd call) =
    (log readyWorld ++ [CacheRead key] ++ [Lookup 26.7606 83.3732])%list /\
  store (snd call) !! key = None /\
  forall (E2 : CallEnv) (skip2 : bool),
    exists tail,
      log (snd (getLocation E2 26.7606 83.3732 skip2 (snd call))) =
        (log (snd call) ++ (if skip2 then [] else [CacheRead key])
           ++ Lookup 26.7606 83.3732 :: tail)%list.
Proof.
  apply (unknown_is_not_cached (quietEnv (inr (Some [[]])) 1000)
           26.7606%float 83.3732%float false readyWorld (Some [[]]));
    reflexivity.
Defined.



End CacheAside.

(* ===================================================================== *)
(** ** The hit counter                                                   *)
(* ===================================================================== *)

Section HitCount.
Import Service.

(** The collection after a call is the one before it, or that one with
    the key's record touched by a hit, or that one with the key's record
    written afresh. *)
Lemma step_store (c : Call) (w : World) :
  let key := generateCacheKey (call_lat c) (call_lng c) in
  store (step c w) = store w \/
  (exists r, store w !! key = Some r /\
     store (step c w) = <[key := GeoCache.touch (tRead (call_env c)) r]> (store w)) \/
  (exists loc raw,
     store (step c w) =
       <[key := GeoCache.written key (call_lat c) (call_lng c) loc raw
                  (tWrite (call_env c)) (tCreate (call_env c)) (store w !! key)]>
         (store w)).
Proof.
  intros key. destruct c as [E lat lng skip]. unfold step.
  cbn [call_env call_lat call_lng call_skipCache] in *.
  destruct (isInitialized w) eqn:Hi;
    [|left; by rewrite getLocation_uninitialized].
  assert (Hfresh : forall w0, store w0 = store w ->
            store (snd (freshOutcome E lat lng w0)) = store w \/
            exists loc raw,
              store (snd (freshOutcome E lat lng w0)) =
                <[key := GeoCache.written key lat lng loc raw (tWrite E) (tCreate E)
                           (store w !! key)]> (store w)).
  { intros w0 H0. unfold freshOutcome. fold key.
    destruct (lookUp E lat lng) as [e|raw]; [by left|].
    destruct (formatLocation raw) as [loc|]; [|by left].
    cbn [snd]. destruct (writeError E) as [e|] eqn:Hw.
    - left. by rewrite afterSave_store_failed.
    - right. exists loc, raw. rewrite afterSave_store_ok by done. cbn. by rewrite H0. }
  destruct skip.
  - rewrite getLocation_skip by done. destruct (Hfresh w eq_refl); auto.
  - destruct (readError E) as [e|] eqn:He;
      [|destruct (store w !! key) as [r|] eqn:Hs].
    + rewrite getLocation_miss by eauto. destruct (Hfresh (emit (CacheRead key) w) eq_refl); auto.
    + right. left. exists r. split; [done|]. by rewrite (getLocation_hit _ _ _ _ r).
    + rewrite getLocation_miss by eauto.
      destruct (Hfresh (emit (CacheRead key) w) eq_refl) as [H|H]; auto.
Qed.

(** A counterexample to C1 as it is stated: the counter of Gorakhpur's
    record is 1 after the first resolve, 2 after the repeat, and 1 again
    after a re-resolution that bypasses the cache. *)
Lemma hitCount_reset_by_bypass :
  hitCount <$> store afterFirst !! "26.761,83.373" = Some 1 /\
  hitCount <$> store afterRepeat !! "26.761,83.373" = Some 2 /\
  hitCount <$> store afterBypass !! "26.761,83.373" = Some 1.
Proof. vm_compute. by repeat split. Qed.

(** C1, amended.  The cache write of resolve (after a miss, after a
    failed cache read, or on a re-resolution that bypasses the cache)
    sets [hitCount] to 1 whether it inserts the record or overwrites one:
    it stores the key, the coordinates, the location and the raw
    response, refreshes [lastAccessedAt], and keeps only [createdAt] of a
    record that was there.  A cache hit adds exactly 1 to the [hitCount]
    of the record it finds, refreshes its [lastAccessedAt] and leaves its
    other fields alone.  Every other call (the engine not initialised,
    the resolver failing or returning no candidate, the write failing)
    leaves the collection as it is, and no call changes a record under
    another key or removes a record.  So across any sequence of resolve
    calls every record's [hitCount] starts at 1 and stays at least 1. *)
Theorem hitCount_lifecycle :
  (forall (E : CallEnv) (lat lng : float) (skipCache : bool) (w : World)
          (raw : RawResult) (loc : Location),
      isInitialized w = true ->
      skipCache = true \/ is_Some (readError E) \/
        store w !! generateCacheKey lat lng = None ->
      lookUp E lat lng = inr raw ->
      formatLocation raw = Some loc ->
      writeError E = None ->
      let key := generateCacheKey lat lng in
      let w' := snd (getLocation E lat lng skipCache w) in
      exists r',
        store w' !! key = Some r' /\
        hitCount r' = 1 /\
        rec_cacheKey r' = key /\ latitude r' = lat /\ longitude r' = lng /\
        location r' = loc /\ rawResponse r' = raw /\
        lastAccessedAt r' = tWrite E /\
        createdAt r' = match store w !! key with
                       | Some r => createdAt r
                       | None => tCreate E
                       end) /\
  (forall (E : CallEnv) (lat lng : float) (w : World) (r : CacheRecord),
      isInitialized w = true ->
      readError E = None ->
      store w !! generateCacheKey lat lng = Some r ->
      let key := generateCacheKey lat lng in
      let w' := snd (getLocation E lat lng false w) in
      exists r',
        store w' !! key = Some r' /\
        hitCount r' = hitCount r + 1 /\
        lastAccessedAt r' = tRead E /\
        rec_cacheKey r' = rec_cacheKey r /\
        latitude r' = latitude r /\ longitude r' = longitude r /\
        location r' = location r /\ rawResponse r' = rawResponse r /\
        createdAt r' = createdAt r) /\
  (forall (E : CallEnv) (lat lng : float) (skipCache : bool) (w : World),
      isInitialized w = false \/
      ((skipCache = true \/ is_Some (readError E) \/
          store w !! generateCacheKey lat lng = None) /\
       (is_Some (writeError E) \/
        (exists err, lookUp E lat lng = inl err) \/
        (exists raw, lookUp E lat lng = inr raw /\ formatLocation raw = None))) ->
      store (snd (getLocation E lat lng skipCache w)) = store w) /\
  (forall (c : Call) (w : World) (k : string),
      (k <> generateCacheKey (call_lat c) (call_lng c) ->
       store (step c w) !! k = store w !! k) /\
      match store w !! k, store (step c w) !! k with
      | None, None => True
      | None, Some r' => hitCount r' = 1
      | Some r, Some r' =>
          r' = r \/ hitCount r' = hitCount r + 1 \/ hitCount r' = 1
      | Some r, None => False
      end) /\
  (forall (calls : list Call) (w : World),
      (forall k r, store w !! k = Some r -> 1 <= hitCount r) ->
      forall k r, store (run calls w) !! k = Some r -> 1 <= hitCount r).
Proof.
  assert (Hstep : forall (c : Call) (w : World) (k : string),
      (k <> generateCacheKey (call_lat c) (call_lng c) ->
       store (step c w) !! k = store w !! k) /\
      match store w !! k, store (step c w) !! k with
      | None, None => True
      | None, Some r' => hitCount r' = 1
      | Some r, Some r' =>
          r' = r \/ hitCount r' = hitCount r + 1 \/ hitCount r' = 1
      | Some r, None => False
      end).
  { intros c w k.
    destruct (step_store c w) as [H|[(r & Hr & H)|(loc & raw & H)]]; rewrite H.
    - split; [done|]. destruct (store w !! k); auto.
    - split; [intros Hne; by rewrite lookup_insert_ne|].
      destruct (decide (generateCacheKey (call_lat c) (call_lng c) = k)) as [<-|Hne].
      + rewrite lookup_insert_eq, Hr. right. left. reflexivity.
      + rewrite lookup_insert_ne by done. destruct (store w !! k); auto.
    - split; [intros Hne; by rewrite lookup_insert_ne|].
      destruct (decide (generateCacheKey (call_lat c) (call_lng c) = k)) as [<-|Hne].
      + rewrite lookup_insert_eq.
        destruct (store w !! generateCacheKey (call_lat c) (call_lng c)); auto.
      + rewrite lookup_insert_ne by done. destruct (store w !! k); auto. }
  split; [|split; [|split; [|split; [exact Hstep|]]]].
  - intros E lat lng skipCache w raw loc Hi Hmiss Hl Hf Hw key w'.
    subst w'. rewrite getLocation_no_hit by done.
    unfold freshOutcome. fold key. rewrite Hl, Hf. cbn [snd].
    rewrite afterSave_store_ok by done. rewrite lookup_insert_eq.
    eexists. split; [reflexivity|]. cbn.
    repeat split. destruct skipCache; cbn; by destruct (store w !! key).
  - intros E lat lng w r Hi Hr Hk key w'. subst w'.
    rewrite (getLocation_hit _ _ _ _ r) by done. cbn [snd store set_store].
    fold key. rewrite lookup_insert_eq. eexists. split; [reflexivity|]. by cbn.
  - intros E lat lng skipCache w [Hi|[Hs Hn]].
    + by rewrite getLocation_uninitialized.
    + destruct (isInitialized w) eqn:Hi; [|by rewrite getLocation_uninitialized].
      rewrite getLocation_no_hit by done.
      assert (Hst : store (emit (Lookup lat lng)
                     (if skipCache then w
                      else emit (CacheRead (generateCacheKey lat lng)) w)) = store w)
        by (by destruct skipCache).
      unfold freshOutcome.
      destruct (lookUp E lat lng) as [err|raw] eqn:Hl; cbn [snd]; [exact Hst|].
      destruct (formatLocation raw) as [loc|] eqn:Hf; cbn [snd]; [|exact Hst].
      destruct Hn as [Hw|[[err [=]]|(raw' & [= <-] & Hf')]]; [|congruence].
      by rewrite afterSave_store_failed, Hst.
  - intros calls. induction calls as [|c calls IH]; intros w Hinv k r; [by apply Hinv|].
    cbn. apply IH. clear k r. intros k r Hk.
    destruct (Hstep c w k) as [_ Hs]. rewrite Hk in Hs.
    destruct (store w !! k) as [r0|] eqn:H0.
    + specialize (Hinv k r0 H0). destruct Hs as [->|[->| ->]]; lia.
    + lia.
Qed.

Lemma hitCount_lifecycle_witness :
  exists r',
    store afterBypass !! generateCacheKey 26.7606 83.3732 = Some r' /\
    hitCount r' = 1 /\
    rec_cacheKey r' = generateCacheKey 26.7606 83.3732 /\
    latitude r' = 26.7606%float /\ longitude r' = 83.3732%float /\
    location r' = gorakhpurLocation /\ rawResponse r' = Some [[gorakhpur]] /\
    lastAccessedAt r' = 3001 /\
    createdAt r' = match store afterRepeat !! generateCacheKey 26.7606 83.3732 with
                   | Some r => createdAt r
                   | None => 3002
                   end.
Proof.
  apply (proj1 hitCount_lifecycle (quietEnv (inr (Some [[gorakhpur]])) 3000)
           26.7606%float 83.3732%float true afterRepeat
           (Some [[gorakhpur]]) gorakhpurLocation);
    [reflexivity | by left | reflexivity | reflexivity | reflexivity].
Defined.

End HitCount.

(* ===================================================================== *)
(** ** Eviction                                                          *)
(* ===================================================================== *)

Section Eviction.
Import Service.

(** [setDate(getDate() - d)] keeps the local time of day and moves the
    local date back by [d] days, whatever the calendar; the result is the
    UTC time of that local time, if it is in the range of dates. *)
Lemma setDate_days_back (LocalTZA : Z -> bool -> Z) (monthStart : Z -> Z) (t d : Z) :
  setDate LocalTZA monthStart t (getDate LocalTZA monthStart t - d) =
    TimeClip (UTC LocalTZA (LocalTime LocalTZA t - d * msPerDay)).
Proof.
  unfold setDate, getDate, MakeDate, MakeDay, Day, TimeWithinDay. cbv zeta.
  f_equal. f_equal.
  pose proof (Z.div_mod (LocalTime LocalTZA t) msPerDay) as H.
  unfold msPerDay in *. lia.
Qed.

Lemma TimeClip_Some time :
  Z.abs time <= 8640000000000000 -> TimeClip time = Some time.
Proof. intros H. unfold TimeClip. by destruct (Z.leb_spec (Z.abs time) 8640000000000000); [|lia]. Qed.

Lemma TimeClip_None time :
  8640000000000000 < Z.abs time -> TimeClip time = None.
Proof. intros H. unfold TimeClip. by destruct (Z.leb_spec (Z.abs time) 8640000000000000); [lia|]. Qed.

(** [clearOldCache], case by case. *)
Lemma clearOldCache_swept LocalTZA monthStart E daysOld w :
  let cutoff := UTC LocalTZA (LocalTime LocalTZA (now E) - default 90 daysOld * msPerDay) in
  Z.abs cutoff <= 8640000000000000 ->
  deleteError E = None ->
  clearOldCache LocalTZA monthStart E daysOld w =
    (Ok (GeoCache.deleteMany cutoff (store w)).2,
     set_store (fun _ => (GeoCache.deleteMany cutoff (store w)).1) w).
Proof.
  intros cutoff Hc He. unfold clearOldCache. cbv zeta.
  rewrite setDate_days_back. fold cutoff. rewrite TimeClip_Some, He by done.
  unfold bind, get_world, effect, ret.
  by destruct (GeoCache.deleteMany cutoff (store w)).
Qed.

Lemma clearOldCache_invalid LocalTZA monthStart E daysOld w :
  let cutoff := UTC LocalTZA (LocalTime LocalTZA (now E) - default 90 daysOld * msPerDay) in
  8640000000000000 < Z.abs cutoff ->
  clearOldCache LocalTZA monthStart E daysOld w = (Throw (castError E), w).
Proof.
  intros cutoff Hc. unfold clearOldCache. cbv zeta.
  rewrite setDate_days_back. fold cutoff. by rewrite TimeClip_None.
Qed.

Lemma clearOldCache_failed LocalTZA monthStart E daysOld w err :
  let cutoff := UTC LocalTZA (LocalTime LocalTZA (now E) - default 90 daysOld * msPerDay) in
  Z.abs cutoff <= 8640000000000000 ->
  deleteError E = Some err ->
  clearOldCache LocalTZA monthStart E daysOld w = (Throw err, w).
Proof.
  intros cutoff Hc He. unfold clearOldCache. cbv zeta.
  rewrite setDate_days_back. fold cutoff. by rewrite TimeClip_Some, He.
Qed.

Lemma deleteMany_lookup cutoff (s : gmap string CacheRecord) k r :
  (GeoCache.deleteMany cutoff s).1 !! k = Some r <->
  s !! k = Some r /\ cutoff <= lastAccessedAt r.
Proof.
  unfold GeoCache.deleteMany. cbn [fst].
  rewrite map_lookup_filter_Some. unfold GeoCache.olderThan. cbn.
  split; intros [H1 H2]; (split; [done|lia]).
Qed.

Lemma deleteMany_count cutoff (s : gmap string CacheRecord) :
  Z.of_nat (size s) =
    Z.of_nat (size (GeoCache.deleteMany cutoff s).1) + (GeoCache.deleteMany cutoff s).2.
Proof.
  unfold GeoCache.deleteMany. cbn [fst snd].
  rewrite <- (map_filter_union_complement (GeoCache.olderThan cutoff) s) at 1.
  rewrite map_size_disj_union by apply map_disjoint_filter_complement.
  lia.
Qed.

(** A counterexample to C7 as it is stated: 200 million days before the
    instant 1000000000 there is no date, and the eviction is refused
    instead of deleting and counting; the collection is left as it is. *)
Lemma eviction_rejects_a_cutoff_out_of_range :
  let w := {| isInitialized := true;
              store := <["atCutoff" := recordAt "atCutoff" 913600000]>
                         (<["older" := recordAt "older" 913599999]> ∅);
              log := [] |} in
  clearOldCache (fun _ _ => 19800000) thirtyDayMonths (sweepEnv 1000000000)
    (Some 200000000) w
  = (Throw "Cast to date failed", w).
Proof. reflexivity. Qed.

(** C7, amended.  For a number of days [daysOld] that is not negative,
    the eviction computes as cutoff the instant at which the host's clock
    shows the local time of [now], [daysOld] days of the calendar
    earlier; that is [now - daysOld] days of 24 hours when the host's
    offset from UTC is the same at both instants.  When the cutoff is in
    the range of dates (at most 8.64e15 ms from the epoch) and the
    collection answers, the eviction deletes exactly the records whose
    [lastAccessedAt] is strictly before the cutoff: a record is there
    afterwards if and only if it was there with [lastAccessedAt >=
    cutoff]; a record last accessed exactly at the cutoff stays, one a
    millisecond older goes; and the value returned is the number of
    records deleted.  When the cutoff is out of that range the eviction
    is refused and nothing is deleted. *)
Theorem eviction_is_strictly_before_cutoff
    (LocalTZA : Z -> bool -> Z) (monthStart : Z -> Z)
    (E : SweepEnv) (daysOld : Z) (w : World) :
  0 <= daysOld ->
  let localCutoff := now E + LocalTZA (now E) true - daysOld * msPerDay in
  let cutoff := localCutoff - LocalTZA localCutoff false in
  let call := clearOldCache LocalTZA monthStart E (Some daysOld) w in
  (LocalTZA localCutoff false = LocalTZA (now E) true ->
   cutoff = now E - daysOld * msPerDay) /\
  (Z.abs cutoff <= 8640000000000000 ->
   deleteError E = None ->
   (exists deletedCount,
      fst call = Ok deletedCount /\
      deletedCount =
        Z.of_nat (size (filter (fun kr => lastAccessedAt kr.2 < cutoff) (store w))) /\
      Z.of_nat (size (store w)) = Z.of_nat (size (store (snd call))) + deletedCount) /\
   (forall k r,
      store (snd call) !! k = Some r <->
      store w !! k = Some r /\ cutoff <= lastAccessedAt r) /\
   (forall k r,
      store w !! k = Some r -> lastAccessedAt r = cutoff ->
      store (snd call) !! k = Some r) /\
   (forall k r,
      store w !! k = Some r -> lastAccessedAt r = cutoff - 1 ->
      store (snd call) !! k = None)) /\
  (8640000000000000 < Z.abs cutoff -> call = (Throw (castError E), w)).
Proof.
  intros Hd localCutoff cutoff call.
  split; [intros Hz; subst cutoff localCutoff; rewrite Hz; lia|].
  split; [|intros Hc; by apply clearOldCache_invalid].
  intros Hc He.
  assert (Hcall : call =
            (Ok (GeoCache.deleteMany cutoff (store w)).2,
             set_store (fun _ => (GeoCache.deleteMany cutoff (store w)).1) w))
    by (by apply clearOldCache_swept).
  rewrite Hcall. cbn [fst snd set_store store].
  assert (Hlook : forall k r,
            (GeoCache.deleteMany cutoff (store w)).1 !! k = Some r <->
            store w !! k = Some r /\ cutoff <= lastAccessedAt r)
    by (intros; apply deleteMany_lookup).
  split; [|split; [exact Hlook|split]].
  - eexists. split; [reflexivity|]. split; [reflexivity|].
    apply deleteMany_count.
  - intros k r Hk Ht. apply Hlook. split; [done|lia].
  - intros k r Hk Ht.
    destruct ((GeoCache.deleteMany cutoff (store w)).1 !! k) as [r'|] eqn:Hk'; [|done].
    apply Hlook in Hk' as [Hk' Hle]. rewrite Hk in Hk'. injection Hk' as <-. lia.
Qed.

(** On a host that changes to daylight saving time at the instant
    1000000000, the cutoff of a sweep of one day made two hours later is
    23 hours before [now]: the record last accessed exactly then stays,
    the one a millisecond older goes. *)
Lemma eviction_is_strictly_before_cutoff_witness :
  let w := {| isInitialized := true;
              store := <["atCutoff" := recordAt "atCutoff" 924400000]>
                         (<["older" := recordAt "older" 924399999]> ∅);
              log := [] |} in
  let call := clearOldCache (dstZone 1000000000) thirtyDayMonths
                (sweepEnv 1007200000) (Some 1) w in
  fst call = Ok 1 /\
  store (snd call) !! "atCutoff" = Some (recordAt "atCutoff" 924400000) /\
  store (snd call) !! "older" = None.
Proof.
  intros w call.
  destruct (eviction_is_strictly_before_cutoff (dstZone 1000000000) thirtyDayMonths
              (sweepEnv 1007200000) 1 w) as (_ & H & _); [lia|].
  destruct H as ((n & Hn & Hcount & _) & _ & Hat & Hold); [by vm_compute|reflexivity|].
  split; [|split].
  - fold call in Hn. rewrite Hn, Hcount. reflexivity.
  - by apply Hat.
  - by apply (Hold "older" (recordAt "older" 924399999)).
Defined.

End Eviction.

(* ===================================================================== *)
(** ** Batches                                                           *)
(* ===================================================================== *)

Section Batch.
Import Service.

Lemma entryOf_coord coord o : be_coord (entryOf coord o) = coord.
Proof. by destruct o. Qed.

Lemma getLocations_from_cons E i coord rest w :
  getLocations_from E i (coord :: rest) w =
    let o := getLocation (E i) (lat coord) (lng coord) false w in
    let tail := getLocations_from E (S i) rest (snd o) in
    match fst tail with
    | Ok results => (Ok (entryOf coord (fst o) :: results), snd tail)
    | Throw msg => (Throw msg, snd tail)
    end.
Proof.
  cbn [getLocations_from]. cbv zeta.
  destruct (getLocation (E i) (lat coord) (lng coord) false w)
    as [[result|msg] w1] eqn:Ho; cbn [fst snd entryOf].
  - erewrite bind_ok;
      [|eapply try_catch_ok; erewrite bind_ok; [reflexivity|exact Ho]].
    unfold bind, ret.
    by destruct (getLocations_from E (S i) rest w1) as [[results|msg'] w2].
  - erewrite bind_ok;
      [|erewrite try_catch_throw; [reflexivity|by eapply bind_throw]].
    unfold bind, ret.
    by destruct (getLocations_from E (S i) rest w1) as [[results|msg'] w2].
Qed.

(** The loop never throws; element [i] of its array comes from the
    [getLocation] call for coordinate [i], made in the world the first
    [i] coordinates left. *)
Lemma getLocations_from_entries E coordinates : forall j w,
  exists entries,
    fst (getLocations_from E j coordinates w) = Ok entries /\
    List.length entries = List.length coordinates /\
    forall i coord,
      coordinates !! i = Some coord ->
      entries !! i =
        Some (entryOf coord
                (fst (getLocation (E (j + i)%nat) (lat coord) (lng coord) false
                        (snd (getLocations_from E j (take i coordinates) w))))).
Proof.
  induction coordinates as [|c cs IH]; intros j w.
  - exists []. by repeat split.
  - rewrite getLocations_from_cons. cbv zeta.
    destruct (IH (S j) (snd (getLocation (E j) (lat c) (lng c) false w)))
      as (es & Hes & Hlen & Hnth).
    rewrite Hes. eexists. split; [reflexivity|]. split; [cbn; by rewrite Hlen|].
    intros [|i] coord Hc.
    + injection Hc as ->. cbn. by rewrite Nat.add_0_r.
    + cbn in Hc. rewrite lookup_cons_ne_0 by done. cbn [Nat.pred].
      rewrite (Hnth i coord Hc).
      change (take (S i) (c :: cs)) with (c :: take i cs).
      rewrite getLocations_from_cons. cbv zeta.
      destruct (fst (getLocations_from E (S j) (take i cs)
                       (snd (getLocation (E j) (lat c) (lng c) false w))));
        cbn [snd]; by rewrite Nat.add_succ_r.
Qed.

Lemma getLocations_from_snoc E coordinates : forall j w i coord,
  coordinates !! i = Some coord ->
  snd (getLocations_from E j (take (S i) coordinates) w) =
    snd (getLocation (E (j + i)%nat) (lat coord) (lng coord) false
           (snd (getLocations_from E j (take i coordinates) w))).
Proof.
  induction coordinates as [|c cs IH]; intros j w i coord Hc; [done|].
  destruct i as [|i].
  - injection Hc as ->. cbn [take]. rewrite getLocations_from_cons. cbv zeta.
    cbn. by rewrite Nat.add_0_r.
  - cbn in Hc. change (take (S (S i)) (c :: cs)) with (c :: take (S i) cs).
    change (take (S i) (c :: cs)) with (c :: take i cs).
    rewrite !getLocations_from_cons. cbv zeta.
    pose proof (IH (S j) (snd (getLocation (E j) (lat c) (lng c) false w)) i coord Hc) as H.
    destruct (getLocations_from_entries E (take (S i) cs) (S j)
                (snd (getLocation (E j) (lat c) (lng c) false w))) as (es1 & -> & _).
    destruct (getLocations_from_entries E (take i cs) (S j)
                (snd (getLocation (E j) (lat c) (lng c) false w))) as (es2 & -> & _).
    cbn [snd]. rewrite H. by rewrite Nat.add_succ_r.
Qed.

(** C8. The batch resolves its coordinates one after the other, one
    resolve call each, and returns exactly one element per coordinate, in
    the order of the input: element [i] carries coordinate [i] and the
    outcome of its resolve call (made with [skipCache = false], in the
    world the coordinates before it left).  The worlds follow one
    another: the first call is made in the world the batch starts in,
    call [i + 1] in the world call [i] left, whether call [i] failed or
    not, and the batch leaves the world its last call left.  A call that
    fails yields the element [{ ...coord, location: null, error: message
    }] in its place and the coordinates after it are resolved all the
    same. *)
Theorem batch_is_ordered_and_partial
    (E : nat -> CallEnv) (coordinates : list Coord) (w : World) :
  exists entries,
    fst (getLocations E coordinates w) = Ok entries /\
    List.length entries = List.length coordinates /\
    be_coord <$> entries = coordinates /\
    worldBefore E coordinates w 0 = w /\
    (forall i coord,
       coordinates !! i = Some coord ->
       worldBefore E coordinates w (S i) =
         snd (getLocation (E i) (lat coord) (lng coord) false
                (worldBefore E coordinates w i))) /\
    snd (getLocations E coordinates w) =
      worldBefore E coordinates w (List.length coordinates) /\
    forall i coord,
      coordinates !! i = Some coord ->
      match fst (getLocation (E i) (lat coord) (lng coord) false
                   (worldBefore E coordinates w i)) with
      | Ok result =>
          entries !! i =
            Some {| be_coord := coord; be_location := Some result; be_error := None |}
      | Throw msg =>
          entries !! i =
            Some {| be_coord := coord; be_location := None; be_error := Some msg |}
      end.
Proof.
  destruct (getLocations_from_entries E coordinates 0%nat w) as (es & Hes & Hlen & Hnth).
  exists es. split; [exact Hes|]. split; [exact Hlen|].
  assert (Hentry : forall i coord, coordinates !! i = Some coord ->
            es !! i = Some (entryOf coord
              (fst (getLocation (E i) (lat coord) (lng coord) false
                      (worldBefore E coordinates w i))))).
  { intros i coord Hc. by rewrite (Hnth i coord Hc). }
  split; [|split; [reflexivity|split; [|split]]].
  - apply list_eq. intros i. rewrite list_lookup_fmap.
    destruct (coordinates !! i) as [coord|] eqn:Hc.
    + rewrite (Hentry i coord Hc). cbn [fmap option_fmap option_map].
      by rewrite entryOf_coord.
    + apply lookup_ge_None in Hc. rewrite <- Hlen in Hc.
      apply lookup_ge_None in Hc. by rewrite Hc.
  - intros i coord Hc. unfold worldBefore, getLocations.
    by rewrite (getLocations_from_snoc E coordinates 0%nat w i coord Hc).
  - unfold worldBefore. by rewrite firstn_all.
  - intros i coord Hc. specialize (Hentry i coord Hc).
    by destruct (fst (getLocation (E i) (lat coord) (lng coord) false
                        (worldBefore E coordinates w i))).
Qed.

Lemma cacheReads_app l1 l2 :
  cacheReads (l1 ++ l2) = (cacheReads l1 ++ cacheReads l2)%list.
Proof. apply omap_app. Qed.

Lemma freshOutcome_reads E lat lng w :
  cacheReads (log (snd (freshOutcome E lat lng w))) = cacheReads (log w).
Proof.
  unfold freshOutcome.
  destruct (lookUp E lat lng) as [err|raw];
    [|destruct (formatLocation raw) as [loc|]]; cbn [snd];
    rewrite ?afterSave_log; cbn [emit log];
    rewrite !cacheReads_app; cbn; by rewrite ?app_nil_r.
Qed.

Lemma getLocation_initialized E lat lng skipCache w :
  isInitialized (snd (getLocation E lat lng skipCache w)) = isInitialized w.
Proof.
  destruct (isInitialized w) eqn:Hi; [|by rewrite getLocation_uninitialized].
  destruct skipCache.
  - rewrite getLocation_skip by done. by rewrite freshOutcome_initialized.
  - destruct (readError E) as [e|] eqn:He;
      [|destruct (store w !! generateCacheKey lat lng) as [r|] eqn:Hs].
    + rewrite getLocation_miss by eauto. by rewrite freshOutcome_initialized.
    + by rewrite (getLocation_hit _ _ _ _ r).
    + rewrite getLocation_miss by eauto. by rewrite freshOutcome_initialized.
Qed.

(** A call consults the cache exactly when it is not told to bypass it. *)
Lemma getLocation_reads E lat lng skipCache w :
  isInitialized w = true ->
  cacheReads (log (snd (getLocation E lat lng skipCache w))) =
    (cacheReads (log w) ++ if skipCache then [] else [generateCacheKey lat lng])%list.
Proof.
  intros Hi. destruct skipCache.
  - rewrite getLocation_skip by done. by rewrite freshOutcome_reads, app_nil_r.
  - destruct (readError E) as [e|] eqn:He;
      [|destruct (store w !! generateCacheKey lat lng) as [r|] eqn:Hs].
    + rewrite getLocation_miss by eauto. rewrite freshOutcome_reads.
      cbn [emit log]. by rewrite cacheReads_app.
    + rewrite (getLocation_hit _ _ _ _ r) by done. cbn. by rewrite cacheReads_app.
    + rewrite getLocation_miss by eauto. rewrite freshOutcome_reads.
      cbn [emit log]. by rewrite cacheReads_app.
Qed.

Lemma getLocations_from_snd_cons E j c cs w :
  snd (getLocations_from E j (c :: cs) w) =
    snd (getLocations_from E (S j) cs (snd (getLocation (E j) (lat c) (lng c) false w))).
Proof.
  rewrite getLocations_from_cons. cbv zeta.
  by destruct (fst (getLocations_from E (S j) cs
                      (snd (getLocation (E j) (lat c) (lng c) false w)))).
Qed.

Lemma getLocations_from_initialized E coordinates : forall j w,
  isInitialized (snd (getLocations_from E j coordinates w)) = isInitialized w.
Proof.
  induction coordinates as [|c cs IH]; intros j w; [done|].
  rewrite getLocations_from_snd_cons, IH. apply getLocation_initialized.
Qed.

Lemma getLocations_from_reads E coordinates : forall j w,
  isInitialized w = true ->
  cacheReads (log (snd (getLocations_from E j coordinates w))) =
    (cacheReads (log w) ++ (keyOf <$> coordinates))%list.
Proof.
  induction coordinates as [|c cs IH]; intros j w Hi.
  - cbn. by rewrite app_nil_r.
  - rewrite getLocations_from_snd_cons, IH
      by (by rewrite getLocation_initialized).
    rewrite getLocation_reads by done. cbn. by rewrite <- app_assoc.
Qed.

(** C10. Every element of a batch is resolved with [skipCache = false]:
    the cache reads a batch makes are those of its coordinates' keys, one
    each and in order; when the collection answers, a coordinate whose
    key is cached is answered from the cache, and one whose key is not
    cached and that the resolver resolves is in the cache afterwards.  A
    single lookup told to bypass the cache makes no cache read. *)
Theorem batch_consults_cache
    (E : nat -> CallEnv) (coordinates : list Coord) (w : World) :
  isInitialized w = true ->
  cacheReads (log (snd (getLocations E coordinates w))) =
    (cacheReads (log w) ++ (keyOf <$> coordinates))%list /\
  (forall i coord,
      coordinates !! i = Some coord ->
      let wi := worldBefore E coordinates w i in
      let wi' := worldBefore E coordinates w (S i) in
      wi' = snd (getLocation (E i) (lat coord) (lng coord) false wi) /\
      cacheReads (log wi') = (cacheReads (log wi) ++ [keyOf coord])%list /\
      (forall r,
          readError (E i) = None ->
          store wi !! keyOf coord = Some r ->
          fst (getLocation (E i) (lat coord) (lng coord) false wi) =
            Ok (hitResult (keyOf coord) (GeoCache.touch (tRead (E i)) r))) /\
      (forall raw loc,
          store wi !! keyOf coord = None ->
          lookUp (E i) (lat coord) (lng coord) = inr raw ->
          formatLocation raw = Some loc ->
          writeError (E i) = None ->
          exists r, store wi' !! keyOf coord = Some r /\ location r = loc /\
                    hitCount r = 1)) /\
  (forall E0 lat lng w0,
      isInitialized w0 = true ->
      cacheReads (log (snd (getLocation E0 lat lng true w0))) = cacheReads (log w0)).
Proof.
  intros Hi. split; [by apply getLocations_from_reads|]. split.
  - intros i coord Hc wi wi'.
    assert (Hwi : isInitialized wi = true).
    { subst wi. unfold worldBefore, getLocations.
      by rewrite getLocations_from_initialized. }
    assert (Hstep : wi' = snd (getLocation (E i) (lat coord) (lng coord) false wi)).
    { subst wi wi'. unfold worldBefore, getLocations.
      by rewrite (getLocations_from_snoc E coordinates 0%nat w i coord Hc). }
    split; [exact Hstep|]. split; [|split].
    + rewrite Hstep. by rewrite getLocation_reads.
    + intros r He Hs. by rewrite (getLocation_hit _ _ _ _ r).
    + intros raw loc Hs Hl Hf Hw. rewrite Hstep.
      rewrite getLocation_miss by auto.
      unfold freshOutcome. rewrite Hl, Hf. cbn [snd].
      rewrite afterSave_store_ok by done. unfold keyOf.
      rewrite lookup_insert_eq. eexists. by repeat split.
  - intros E0 lat lng w0 H0. rewrite getLocation_reads by done. by rewrite app_nil_r.
Qed.

Lemma batch_consults_cache_witness :
  let E := fun _ : nat => quietEnv (inr (Some [[gorakhpur]])) 1000 in
  let coordinates := [ {| lat := 26.7606; lng := 83.3732 |};
                       {| lat := 26.76064; lng := 83.37324 |} ] in
  cacheReads (log (snd (getLocations E coordinates readyWorld))) =
    (cacheReads (log readyWorld) ++ (keyOf <$> coordinates))%list.
Proof.
  intros E coordinates.
  apply (proj1 (batch_consults_cache E coordinates readyWorld eq_refl)).
Defined.

End Batch.

(* ===================================================================== *)
(** ** The formatter's defaults                                          *)
(* ===================================================================== *)

Section FormatterDefaults.
Import Service.

(** C6, at the input where the code departs from it.  For a candidate
    without a country code the record has the country code defaulted to
    the empty string, as the name, the admin names and the feature code
    are, and the population to 0; the country name alone is not
    defaulted: it is [undefined], not the empty string.  (The display
    name is not affected: it is the name alone.) *)
Theorem countryName_is_not_defaulted :
  exists loc,
    formatLocation (Some [[placeWithoutCountry]]) = Some loc /\
    name loc = "Null Island" /\
    adminName1 loc = NameStr "" /\
    adminName2 loc = NameStr "" /\
    countryCode loc = "" /\
    featureCode loc = "" /\
    population loc = 0 /\
    displayName loc = "Null Island" /\
    countryName loc = None /\
    countryName loc <> Some (NameStr "").
Proof. eexists. split; [reflexivity|]. cbn. by repeat split. Qed.

(** The rest of C6 for every candidate: the country name of a code that
    is present is the table's or else, if the code is not the name of a
    property that objects inherit, the code; and the display name is the
    non-empty ones of: the name, the second-level admin name if it
    differs from the name, the first-level admin name, the country name,
    joined with a comma and a space. *)
Lemma formatLocation_displayName data ds rest loc :
  formatLocation (Some ((data :: ds) :: rest)) = Some loc ->
  (forall code, raw_countryCode data = Some code ->
     table_get objectPrototype code = None ->
     countryName loc = Some (NameStr (default code (table_get countries code)))) /\
  displayName loc =
    join ", "
      (to_str <$>
         ((if truthy (NameStr (name loc)) then [NameStr (name loc)] else [])
          ++ (if truthy (adminName2 loc) && differs (adminName2 loc) (name loc)
              then [adminName2 loc] else [])
          ++ (if truthy (adminName1 loc) then [adminName1 loc] else [])
          ++ (if countryName_truthy (countryName loc)
              then [default (NameStr "") (countryName loc)] else []))%list).
Proof.
  intros H.
  destruct (formatLocation_fields data ds rest)
    as (loc' & H' & _ & _ & _ & _ & Hcn & _ & _ & Hd).
  rewrite H in H'. injection H' as <-. split.
  - intros code Hc Hp. rewrite Hcn, Hc.
    destruct (table_get countries code) as [n|] eqn:Hn.
    + by rewrite (getCountryName_known code n).
    + by rewrite getCountryName_unknown.
  - rewrite Hd. by rewrite displayParts_filtered.
Qed.

(** The other case: a country code that is the name of a property
    objects inherit gets that property as its country name, and the
    display name shows it as [String] renders it. *)
Lemma formatLocation_inherited_countryName :
  exists loc,
    formatLocation
      (Some [[ {| raw_name := Some "Somewhere"; raw_admin1Code := None;
                  raw_admin2Code := None; raw_countryCode := Some "constructor";
                  raw_population := None; raw_featureCode := None |} ]]) = Some loc /\
    countryName loc = Some (NameFun "Object") /\
    displayName loc = "Somewhere, function Object() { [native code] }".
Proof. eexists. split; [reflexivity|]. by cbn. Qed.

End FormatterDefaults.

(* ===================================================================== *)
(** ** The key quantizer                                                 *)
(* ===================================================================== *)

Section Quantizer.
Import Service.

Lemma generateCacheKey_unfold lat lng :
  generateCacheKey lat lng =
    JS.NumberToString (round3 lat) ++ "," ++ JS.NumberToString (round3 lng).
Proof. reflexivity. Qed.

(** A counterexample to C2 as it is stated: 1e21 and 1e306 are finite
    binary64 numbers, and their keys are not in fixed decimal notation. *)
Lemma key_of_huge_coordinate_is_not_fixed_decimal :
  generateCacheKey 1e21 0 = "1e+21,0" /\
  fixed_key (generateCacheKey 1e21 0) = false /\
  generateCacheKey 1e306 0 = "Infinity,0" /\
  fixed_key (generateCacheKey 1e306 0) = false /\
  fixed_key (generateCacheKey 26.7606 83.3732) = true.
Proof. vm_compute. by repeat split. Qed.

End Quantizer.

(* ===================================================================== *)
(** ** The keys of the grid of thousandths                               *)
(* ===================================================================== *)

(** For [0 < |n| <= 180000] the digits that [Number::toString] finds for
    the quotient [n / 1000] are those of [|n|] without its trailing
    zeros, so that the key component is the fixed notation [fixed3 n].
    The quotient is [m * 2^e], the binary64 number nearest to
    [n / 1000]; the proofs below work with the scaled distance
    [d = 1000 * m - |n| * 2^(-e)], of magnitude below 500. *)

(** *** The decomposition of a normal number *)

(** A mantissa of 53 bits is not shifted by [Prim2SF]. *)
Lemma digits2_pos_bounds (p : positive) :
  2 ^ (Z.pos (digits2_pos p) - 1) <= Z.pos p < 2 ^ Z.pos (digits2_pos p).
Proof.
  induction p as [p IH|p IH|]; cbn [digits2_pos].
  - rewrite Pos2Z.inj_succ. replace (Z.succ (Z.pos (digits2_pos p)) - 1)
      with (Z.succ (Z.pos (digits2_pos p) - 1)) by lia.
    rewrite !Z.pow_succ_r by lia. lia.
  - rewrite Pos2Z.inj_succ. replace (Z.succ (Z.pos (digits2_pos p)) - 1)
      with (Z.succ (Z.pos (digits2_pos p) - 1)) by lia.
    rewrite !Z.pow_succ_r by lia. lia.
  - cbn. lia.
Qed.

Lemma Zdigits2_53 (m : Z) : 2 ^ 52 <= m < 2 ^ 53 -> Zdigits2 m = 53.
Proof.
  intros [Hlo Hhi]. destruct m as [|p|p]; try (cbn in Hlo; lia).
  cbn [Zdigits2]. pose proof (digits2_pos_bounds p) as [H1 H2].
  destruct (Z.lt_trichotomy (Z.pos (digits2_pos p)) 53) as [Hlt|[Heq|Hgt]]; [|done|].
  - assert (2 ^ Z.pos (digits2_pos p) <= 2 ^ 52) by (apply Z.pow_le_mono_r; lia). lia.
  - assert (2 ^ 53 <= 2 ^ (Z.pos (digits2_pos p) - 1)) by (apply Z.pow_le_mono_r; lia). lia.
Qed.

(** The mantissa and exponent of a normal number, read off the
    primitive decomposition. *)
Lemma Prim2SF_normal (r : float) (f : float) (ex : Z) :
  is_nan r = false -> is_zero r = false -> is_infinity r = false ->
  Z.frexp r = (f, ex) ->
  2 ^ 52 <= Uint63Axioms.to_Z (normfr_mantissa f) < 2 ^ 53 ->
  -1074 <= ex - 53 ->
  Prim2SF r =
    S754_finite (get_sign r) (Z.to_pos (Uint63Axioms.to_Z (normfr_mantissa f))) (ex - 53).
Proof.
  intros Hn Hz Hi Hf Hm He. unfold Prim2SF. rewrite Hn, Hz, Hi, Hf.
  unfold shr_fexp. rewrite (Zdigits2_53 _ Hm).
  unfold fexp, SpecFloat.emin, emax, prec.
  replace (Z.max (53 + (ex - 53) - 53) (3 - 1024 - 53) - (ex - 53)) with 0 by lia.
  cbn [shr shr_record_of_loc shr_m].
  destruct (Uint63Axioms.to_Z (normfr_mantissa f)) as [|p|p] eqn:Hp; try lia.
  reflexivity.
Qed.

(** *** The search for the shortest digits *)

Lemma div_eucl_div_mod a b : Z.div_eucl a b = (a / b, a mod b).
Proof. unfold Z.div, Z.modulo. by destruct (Z.div_eucl a b). Qed.

(** Comparisons scaled by a positive factor. *)
Lemma leb_scaled x y T : 0 < T -> (x <=? y) = (x * T <=? y * T).
Proof.
  intros HT. destruct (Z.leb_spec x y) as [H|H], (Z.leb_spec (x * T) (y * T)) as [H'|H'];
    try reflexivity; nia.
Qed.

Lemma ltb_scaled x y T : 0 < T -> (x <? y) = (x * T <? y * T).
Proof.
  intros HT. destruct (Z.ltb_spec x y) as [H|H], (Z.ltb_spec (x * T) (y * T)) as [H'|H'];
    try reflexivity; nia.
Qed.

Lemma quot_rem_scaled V t T a y :
  0 < T -> 0 < t -> V * T = a * t * T + y -> 0 <= y < t * T ->
  V / t = a /\ V mod t = V - a * t.
Proof.
  intros HT Ht HV Hy.
  assert (Hx : (V - a * t) * T = y) by lia.
  assert (H0 : 0 <= V - a * t).
  { destruct (Z.le_gt_cases 0 (V - a * t)) as [H|H]; [done|]. nia. }
  assert (H1 : V - a * t < t).
  { apply (Z.mul_lt_mono_pos_r T); lia. }
  split; symmetry.
  - apply (Z.div_unique V t a (V - a * t)); [left; lia|ring].
  - apply (Z.mod_unique V t a (V - a * t)); [left; lia|ring].
Qed.

Lemma mul_bounds rho B d T :
  1000 < B -> -500 < d < 500 -> 0 < rho < T ->
  500 < rho * B + d /\ 500 < B * T - (rho * B + d).
Proof. intros HB Hd Hr. split; nia. Qed.

Lemma scaled_range h y B T :
  0 < h -> 0 <= y < B * T -> 0 <= 4 * h * y < h * (4 * B) * T.
Proof. intros Hh Hy. split; nia. Qed.

Section Thousandths.
Variables (m : positive) (e P d : Z).
Hypothesis Hm : 2 ^ 52 <= Z.pos m < 2 ^ 53.
Hypothesis He : -62 <= e <= -45.
Hypothesis Hd : d = 1000 * Z.pos m - P * 2 ^ (- e).
Hypothesis Hdr : -500 < d < 500.
Hypothesis Hm52 : Z.pos m = 2 ^ 52 -> d = 0.
Hypothesis HP : 0 < P.

Let B := 2 ^ (- e).

Lemma B_large : 2 ^ 45 <= B.
Proof. unfold B. apply Z.pow_le_mono_r; lia. Qed.

Lemma quarter_grid q : JS.quarter e q = 10 ^ Z.max 0 (- q).
Proof. unfold JS.quarter. rewrite (Z.max_l 0 (e - 2)) by lia. lia. Qed.

Lemma step_grid q : JS.step e q = 10 ^ Z.max 0 q * (4 * B).
Proof.
  unfold JS.step, B. rewrite (Z.max_r 0 (2 - e)) by lia.
  replace (2 - e) with (2 + - e) by lia. rewrite Z.pow_add_r by lia. lia.
Qed.

(** [10^max(0,-q) * 10^(q+3) = 1000 * 10^max(0,q)] *)
Lemma pow10_balance q : 0 <= q + 3 ->
  10 ^ Z.max 0 (- q) * 10 ^ (q + 3) = 1000 * 10 ^ Z.max 0 q.
Proof.
  intros Hq. destruct (Z.le_gt_cases q 0) as [H|H].
  - rewrite (Z.max_r 0 (- q)), (Z.max_l 0 q) by lia.
    rewrite <- Z.pow_add_r by lia. replace (- q + (q + 3)) with 3 by lia. lia.
  - rewrite (Z.max_l 0 (- q)), (Z.max_r 0 q) by lia.
    rewrite Z.pow_add_r by lia. lia.
Qed.

(** The gap below the number is the gap above it, unless the mantissa
    is the smallest one, where the quotient is exact. *)
Lemma low_gap_cases : JS.low_gap m e = 2 \/ (JS.low_gap m e = 1 /\ d = 0).
Proof.
  unfold JS.low_gap. destruct (Z.eqb_spec (Z.pos m) (2 ^ 52)) as [H|H]; cbn.
  - destruct (-1074 <? e); auto.
  - auto.
Qed.

(** The rounding interval, in the scaled units of [JS.candidate]. *)
Lemma within_true x g G T h :
  0 < T -> 0 < h -> 0 < g -> g * T = 1000 * h ->
  (G = 2 \/ (G = 1 /\ x = 0)) ->
  (exists y, x * T = 4 * h * y /\ 0 <= y < 500) ->
  JS.within m x (G * g) = true.
Proof.
  intros HT Hh Hg Hb HG (y & Hy & Hyr). unfold JS.within.
  assert (x < G * g).
  { destruct HG as [->|[-> ->]]; [|lia]. nia. }
  destruct (Z.even (Z.pos m)); [apply Z.leb_le|apply Z.ltb_lt]; lia.
Qed.

Lemma within_false x g G T h :
  0 < T -> 0 < h -> 0 < g -> g * T = 1000 * h ->
  1 <= G <= 2 ->
  (exists y, x * T = 4 * h * y /\ 500 < y) ->
  JS.within m x (G * g) = false.
Proof.
  intros HT Hh Hg Hb HG (y & Hy & Hyr). unfold JS.within.
  assert (G * g < x) by nia.
  destruct (Z.even (Z.pos m)); [apply Z.leb_gt|apply Z.ltb_ge]; lia.
Qed.

(** The candidate with [k] digits at the exponent [nv]: [P] cut after
    its first [k] digits, accepted exactly when nothing is cut off. *)
Lemma candidate_grid (nv : Z) (k : nat) (c a rho : Z) :
  c = nv - Z.of_nat k + 3 -> 0 <= c ->
  P = a * 10 ^ c + rho -> 0 <= rho < 10 ^ c ->
  (0 < rho -> JS.candidate m e nv k = None) /\
  (rho = 0 -> 10 ^ (Z.of_nat k - 1) <= a < 10 ^ Z.of_nat k ->
   JS.candidate m e nv k = Some {| JS.sh_s := a; JS.sh_k := k; JS.sh_n := nv |}).
Proof.
  intros Hc Hc0 HPa Hrho.
  unfold JS.candidate. cbv zeta.
  set (q := nv - Z.of_nat k) in *.
  rewrite quarter_grid, step_grid, div_eucl_div_mod.
  set (g := 10 ^ Z.max 0 (- q)).
  set (h := 10 ^ Z.max 0 q).
  set (T := 10 ^ c) in *.
  pose proof B_large as HB. assert (HB' : 1000 < B) by lia.
  assert (Hg : 0 < g) by (apply Z.pow_pos_nonneg; lia).
  assert (Hh : 0 < h) by (apply Z.pow_pos_nonneg; lia).
  assert (HT : 0 < T) by (apply Z.pow_pos_nonneg; lia).
  assert (Ht : 0 < h * (4 * B)) by (apply Z.mul_pos_pos; lia).
  assert (Hbal : g * T = 1000 * h).
  { unfold g, h, T. rewrite Hc. apply pow10_balance. fold q. lia. }
  assert (Hd' : 1000 * Z.pos m = P * B + d) by (unfold B; lia).
  assert (HBT : B <= B * T) by (clear - HB' HT; nia).
  assert (HVT : forall a', 4 * Z.pos m * g * T =
                 a' * (h * (4 * B)) * T + 4 * h * ((a - a') * T * B + rho * B + d)).
  { intros a'. replace (4 * Z.pos m * g * T) with (4 * h * (1000 * Z.pos m))
      by (transitivity (4 * Z.pos m * (g * T)); [rewrite Hbal|]; ring).
    rewrite Hd', HPa. ring. }
  pose proof low_gap_cases as HG.
  clearbody g h T.
  split.
  - (* a digit of [P] is lost on this grid *)
    intros Hpos.
    destruct (mul_bounds rho B d T) as [Hy Hy2]; [lia..|].
    destruct (quot_rem_scaled (4 * Z.pos m * g) (h * (4 * B)) T a
                (4 * h * ((a - a) * T * B + rho * B + d))) as [Hlo Hdlo];
      [done|done|apply HVT|apply scaled_range; lia|].
    rewrite Hlo, Hdlo.
    rewrite (within_false _ g (JS.low_gap m e) T h); try done.
    2:{ destruct HG as [->|[-> _]]; lia. }
    2:{ exists (rho * B + d). split; [specialize (HVT a); lia|lia]. }
    rewrite (within_false _ g 2 T h); try done; try lia.
    2:{ exists (B * T - (rho * B + d)). split; [specialize (HVT a); lia|lia]. }
    rewrite andb_false_r. reflexivity.
  - intros -> Ha.
    destruct (Z.le_gt_cases 0 d) as [Hd0|Hd0].
    + (* the decimal is at or below the number *)
      destruct (quot_rem_scaled (4 * Z.pos m * g) (h * (4 * B)) T a
                  (4 * h * ((a - a) * T * B + 0 * B + d))) as [Hlo Hdlo];
        [done|done|apply HVT|apply scaled_range; lia|].
      rewrite Hlo, Hdlo.
      rewrite (within_true _ g (JS.low_gap m e) T h); try done.
      2:{ destruct HG as [->|[-> Hz]]; [by left|right]. split; [done|].
          specialize (HVT a). nia. }
      2:{ exists d. split; [specialize (HVT a); lia|lia]. }
      rewrite (within_false _ g 2 T h); try done; try lia.
      2:{ exists (B * T - d). split; [specialize (HVT a); lia|nia]. }
      destruct (Z.leb_spec (10 ^ (Z.of_nat k - 1)) a); [|lia]. reflexivity.
    + (* the decimal is above the number *)
      destruct (quot_rem_scaled (4 * Z.pos m * g) (h * (4 * B)) T (a - 1)
                  (4 * h * ((a - (a - 1)) * T * B + 0 * B + d))) as [Hlo Hdlo];
        [done|done|apply HVT|apply scaled_range; lia|].
      rewrite Hlo, Hdlo.
      rewrite (within_false _ g (JS.low_gap m e) T h); try done.
      2:{ destruct HG as [->|[-> _]]; lia. }
      2:{ exists (B * T + d). split; [specialize (HVT (a - 1)); lia|nia]. }
      rewrite (within_true _ g 2 T h); try done; try (by left).
      2:{ exists (- d). split; [specialize (HVT (a - 1)); lia|lia]. }
      rewrite andb_false_r. cbn [negb orb andb].
      replace (a - 1 + 1) with a by lia.
      destruct (Z.eqb_spec a (10 ^ Z.of_nat k)); [lia|]. reflexivity.
Qed.


(** *** The decimal exponent *)

Variable L : Z.
Hypothesis HL : 1 <= L <= 6.
Hypothesis HPL : 10 ^ (L - 1) <= P < 10 ^ L.
Hypothesis Hpow : P = 10 ^ (L - 1) -> 0 <= d.

Lemma PB_lower : 10 ^ (L - 1) * B <= P * B + d.
Proof.
  pose proof B_large as HB.
  destruct (Z.eq_dec P (10 ^ (L - 1))) as [Heq|Hne].
  - specialize (Hpow Heq). rewrite <- Heq. lia.
  - assert ((10 ^ (L - 1) + 1) * B <= P * B)
      by (apply Z.mul_le_mono_nonneg_r; lia).
    lia.
Qed.

Lemma PB_upper : P * B + d < 10 ^ L * B.
Proof.
  pose proof B_large as HB.
  assert (P * B <= (10 ^ L - 1) * B) by (apply Z.mul_le_mono_nonneg_r; lia).
  lia.
Qed.

(** The number is below [10^n] exactly from [n = L - 3] on, [L] being
    the number of digits of [P]. *)
Lemma below_pow10_grid n :
  JS.below_pow10 m e n = (L - 3 <=? n).
Proof.
  pose proof B_large as HB. pose proof PB_lower as Hlo. pose proof PB_upper as Hup.
  unfold JS.below_pow10, JS.scaled. rewrite quarter_grid, step_grid.
  set (g := 10 ^ Z.max 0 (- n)). set (h := 10 ^ Z.max 0 n).
  assert (Hg : 0 < g) by (apply Z.pow_pos_nonneg; lia).
  assert (Hh : 0 < h) by (apply Z.pow_pos_nonneg; lia).
  assert (Hd' : 1000 * Z.pos m = P * B + d) by (unfold B; lia).
  destruct (Z.le_gt_cases 0 (n + 3)) as [Hn|Hn].
  - (* both sides, times 1000, are multiples of [4 g] *)
    assert (Hbal : g * 10 ^ (n + 3) = 1000 * h) by (apply pow10_balance; lia).
    rewrite (ltb_scaled _ _ 1000) by lia.
    replace (4 * Z.pos m * g * 1000) with ((P * B + d) * (4 * g))
      by (rewrite <- Hd'; ring).
    replace (h * (4 * B) * 1000) with (10 ^ (n + 3) * B * (4 * g))
      by (transitivity (4 * B * (g * 10 ^ (n + 3))); [ring|rewrite Hbal; ring]).
    rewrite <- (ltb_scaled _ _ (4 * g)) by lia.
    destruct (Z.leb_spec (L - 3) n) as [Hle|Hgt].
    + apply Z.ltb_lt.
      assert (10 ^ L <= 10 ^ (n + 3)) by (apply Z.pow_le_mono_r; lia).
      assert (10 ^ L * B <= 10 ^ (n + 3) * B) by (apply Z.mul_le_mono_nonneg_r; lia).
      lia.
    + apply Z.ltb_ge.
      assert (10 ^ (n + 3) <= 10 ^ (L - 1)) by (apply Z.pow_le_mono_r; lia).
      assert (10 ^ (n + 3) * B <= 10 ^ (L - 1) * B)
        by (apply Z.mul_le_mono_nonneg_r; lia).
      lia.
  - (* the number is above 10^-4 *)
    destruct (Z.leb_spec (L - 3) n) as [Hle|Hgt]; [lia|].
    apply Z.ltb_ge. unfold h. rewrite (Z.max_l 0 n) by lia.
    assert (10 ^ 4 <= g) by (unfold g; apply Z.pow_le_mono_r; lia).
    assert (B <= 2 ^ 62) by (unfold B; apply Z.pow_le_mono_r; lia).
    assert (2 ^ 52 * 10 ^ 4 <= Z.pos m * g) by (apply Z.mul_le_mono_nonneg; lia).
    lia.
Qed.

Lemma is_exponent_grid n : JS.is_exponent m e n = (n =? L - 3).
Proof.
  unfold JS.is_exponent. rewrite !below_pow10_grid.
  destruct (Z.leb_spec (L - 3) (n - 1)), (Z.leb_spec (L - 3) n), (Z.eqb_spec n (L - 3));
    cbn; lia || reflexivity.
Qed.

Lemma find_exponent_grid fuel : forall start,
  start <= L - 3 < start + Z.of_nat fuel ->
  JS.find_exponent fuel m e start = L - 3.
Proof.
  induction fuel as [|fuel IH]; intros start Hs; [lia|].
  cbn [JS.find_exponent]. rewrite is_exponent_grid.
  destruct (Z.eqb_spec start (L - 3)) as [->|Hne]; [done|].
  apply IH. lia.
Qed.

Hypothesis Hest :
  (52 + e) * 1233 / 4096 - 3 <= L - 3 <= (52 + e) * 1233 / 4096 + 4.

Lemma decimal_exponent_grid : JS.decimal_exponent m e = L - 3.
Proof.
  unfold JS.decimal_exponent. cbv zeta.
  replace (Z.log2 (Z.pos m)) with 52
    by (symmetry; apply Z.log2_unique; lia).
  rewrite is_exponent_grid.
  destruct (Z.eqb_spec ((52 + e) * 1233 / 4096 + 1) (L - 3)) as [H|H]; [done|].
  apply find_exponent_grid. lia.
Qed.

(** *** The shortest digit string *)

(** The search stops at the first digit count [k] whose candidate is
    accepted. *)
Lemma search_grid (k : nat) : forall (fuel k0 : nat),
  (k0 <= k < k0 + fuel)%nat ->
  (forall k', (k0 <= k' < k)%nat -> JS.candidate m e (L - 3) k' = None) ->
  forall r, JS.candidate m e (L - 3) k = Some r ->
  JS.search fuel m e (L - 3) k0 = r.
Proof.
  induction fuel as [|fuel IH]; intros k0 Hk Hnone r Hsome; [lia|].
  cbn [JS.search].
  destruct (decide (k0 = k)) as [->|Hne]; [by rewrite Hsome|].
  rewrite Hnone by lia. apply IH; [lia| |done].
  intros k' Hk'. apply Hnone. lia.
Qed.

End Thousandths.

(** *** The rendering of at most six digits *)

Lemma count_digits_small fuel s :
  0 <= s < 10 -> JS.count_digits fuel s = 1%nat.
Proof.
  intros Hs. destruct fuel; [done|]. cbn.
  by destruct (Z.ltb_spec s 10); [|lia].
Qed.

Lemma nat_dec_1 s : 0 <= s < 10 -> JS.nat_dec s = JS.digits 1 s "".
Proof. intros Hs. unfold JS.nat_dec. by rewrite count_digits_small. Qed.

Lemma nat_dec_2 s : 10 <= s < 100 -> JS.nat_dec s = JS.digits 2 s "".
Proof.
  intros Hs. unfold JS.nat_dec.
  assert (3 <= Z.log2 s) by (change 3 with (Z.log2 10); apply Z.log2_le_mono; lia).
  destruct (Z.to_nat (Z.log2 s)) as [|f] eqn:Hf; [lia|].
  cbn [Nat.add JS.count_digits].
  destruct (Z.ltb_spec s 10); [lia|].
  rewrite count_digits_small; [done|].
  Z.div_mod_to_equations; lia.
Qed.

Lemma nat_dec_3 s : 100 <= s < 1000 -> JS.nat_dec s = JS.digits 3 s "".
Proof.
  intros Hs. unfold JS.nat_dec.
  assert (6 <= Z.log2 s) by (change 6 with (Z.log2 100); apply Z.log2_le_mono; lia).
  destruct (Z.to_nat (Z.log2 s)) as [|[|f]] eqn:Hf; [lia..|].
  cbn [Nat.add JS.count_digits].
  destruct (Z.ltb_spec s 10); [lia|].
  destruct (Z.ltb_spec (s / 10) 10); [Z.div_mod_to_equations; lia|].
  rewrite count_digits_small; [done|].
  Z.div_mod_to_equations; lia.
Qed.

#[local] Opaque JS.digit_char Z.div Z.modulo.

Ltac pow10_consts :=
  repeat match goal with
         | H : context [10 ^ ?x] |- _ =>
             let v := eval vm_compute in (10 ^ x) in change (10 ^ x) with v in H
         | |- context [10 ^ ?x] =>
             let v := eval vm_compute in (10 ^ x) in change (10 ^ x) with v
         end.

Ltac arith := Z.div_mod_to_equations; lia.

Lemma string_cons_eq c c' s s' : c = c' -> s = s' -> String c s = String c' s'.
Proof. by intros -> ->. Qed.

Ltac char_eq :=
  first [ reflexivity
        | change "0"%char with (JS.digit_char 0); f_equal; arith
        | f_equal; arith ].

Ltac digits_eq :=
  repeat match goal with
         | |- String _ _ = String _ _ => apply string_cons_eq; [char_eq|]
         end;
  try reflexivity.

Ltac fraction_cases P :=
  destruct (Z.eqb_spec (P mod 1000) 0); [try arith|try arith];
  try (destruct (Z.eqb_spec (P mod 1000 mod 100) 0); [try arith|try arith];
       try (destruct (Z.eqb_spec (P mod 1000 mod 10) 0); [try arith|try arith])).

(** The three fixed-notation branches of [JS.render]. *)
Lemma render_integer s k n :
  Z.of_nat k <= n <= 21 ->
  JS.render {| JS.sh_s := s; JS.sh_k := k; JS.sh_n := n |} =
    JS.digits k s "" ++ JS.zeros (Z.to_nat (n - Z.of_nat k)).
Proof.
  intros H. unfold JS.render. cbn [JS.sh_s JS.sh_k JS.sh_n].
  destruct (Z.leb_spec (Z.of_nat k) n); [|lia].
  destruct (Z.leb_spec n 21); [|lia]. reflexivity.
Qed.

Lemma render_point s k n :
  0 < n < Z.of_nat k -> n <= 21 ->
  JS.render {| JS.sh_s := s; JS.sh_k := k; JS.sh_n := n |} =
    JS.take (Z.to_nat n) (JS.digits k s "") ++ "." ++
    JS.drop (Z.to_nat n) (JS.digits k s "").
Proof.
  intros H H'. unfold JS.render. cbn [JS.sh_s JS.sh_k JS.sh_n].
  destruct (Z.leb_spec (Z.of_nat k) n); [lia|].
  destruct (Z.ltb_spec 0 n); [|lia].
  destruct (Z.leb_spec n 21); [|lia]. reflexivity.
Qed.

Lemma render_fraction s k n :
  -6 < n <= 0 -> (0 < k)%nat ->
  JS.render {| JS.sh_s := s; JS.sh_k := k; JS.sh_n := n |} =
    "0." ++ JS.zeros (Z.to_nat (- n)) ++ JS.digits k s "".
Proof.
  intros H H'. unfold JS.render. cbn [JS.sh_s JS.sh_k JS.sh_n].
  destruct (Z.leb_spec (Z.of_nat k) n); [lia|].
  destruct (Z.ltb_spec 0 n); [lia|].
  destruct (Z.ltb_spec (-6) n); [|lia].
  destruct (Z.leb_spec n 0); [|lia]. reflexivity.
Qed.

Ltac nat_consts :=
  repeat match goal with
         | |- context [Z.to_nat ?x] =>
             let v := eval vm_compute in (Z.to_nat x) in
             progress change (Z.to_nat x) with v
         end.

(** Steps 6 to 8 of [Number::toString] on the digits [a] of
    [P = a * 10^j], with the point three places from the right of [P]. *)
Lemma render_grid (P L j a : Z) :
  1 <= L <= 6 -> 0 <= j < L ->
  P = a * 10 ^ j -> a mod 10 <> 0 ->
  10 ^ (L - 1) <= P < 10 ^ L ->
  JS.render {| JS.sh_s := a; JS.sh_k := Z.to_nat (L - j); JS.sh_n := L - 3 |} =
    fixed3_body P.
Proof.
  intros HL Hj HP Ha HPL.
  assert (HLs : L = 1 \/ L = 2 \/ L = 3 \/ L = 4 \/ L = 5 \/ L = 6) by lia.
  assert (Hjs : j = 0 \/ j = 1 \/ j = 2 \/ j = 3 \/ j = 4 \/ j = 5) by lia.
  unfold fixed3_body, fraction3.
  destruct HLs as [->|[->|[->|[->|[->| ->]]]]];
    destruct Hjs as [->|[->|[->|[->|[->| ->]]]]]; try lia;
    pow10_consts.
  all: first [ rewrite render_integer by lia
             | rewrite render_point by lia
             | rewrite render_fraction by lia ].
  all: first [ rewrite (nat_dec_1 (P / 1000)) by arith
             | rewrite (nat_dec_2 (P / 1000)) by arith
             | rewrite (nat_dec_3 (P / 1000)) by arith ].
  all: fraction_cases P.
  all: nat_consts; cbn; cbv [String.append].
  all: digits_eq.
Qed.

#[local] Transparent JS.digit_char Z.div Z.modulo.

(** *** The digits of the thousandths *)

Lemma no_trailing_zero a j c :
  a mod 10 <> 0 -> 0 <= j < c -> (a * 10 ^ j) mod 10 ^ c <> 0.
Proof.
  intros Ha Hj H.
  apply Z.mod_divide in H; [|apply Z.pow_nonzero; lia].
  destruct H as [x Hx].
  replace c with (j + 1 + (c - j - 1)) in Hx by lia.
  rewrite !Z.pow_add_r in Hx by lia.
  assert (H10 : 0 < 10 ^ j) by (apply Z.pow_pos_nonneg; lia).
  assert (a = x * 10 ^ (c - j - 1) * 10).
  { apply (Z.mul_cancel_r _ _ (10 ^ j)); [lia|]. rewrite Hx.
    change (10 ^ 1) with 10. ring. }
  apply Ha. subst a. apply Z.mod_mul. lia.
Qed.

Lemma digit_count_bounds p :
  0 < p < 10 ^ 6 ->
  1 <= Grid.digit_count p <= 6 /\ 10 ^ (Grid.digit_count p - 1) <= p < 10 ^ Grid.digit_count p.
Proof.
  intros Hp. unfold Grid.digit_count.
  repeat match goal with
         | |- context [?x <? ?y] => destruct (Z.ltb_spec x y)
         end; pow10_consts; lia.
Qed.

(** A number below [10^6] without its trailing zeros. *)
Lemma trailing_zeros_exist p :
  0 < p < 10 ^ 6 ->
  exists j a, 0 <= j /\ p = a * 10 ^ j /\ a mod 10 <> 0 /\ 0 < a.
Proof.
  intros Hp. pow10_consts.
  destruct (Z.eq_dec (p mod 10) 0) as [H1|H1]; [|exists 0, p; pow10_consts; lia].
  destruct (Z.eq_dec (p mod 100) 0) as [H2|H2];
    [|exists 1, (p / 10); pow10_consts; arith].
  destruct (Z.eq_dec (p mod 1000) 0) as [H3|H3];
    [|exists 2, (p / 100); pow10_consts; arith].
  destruct (Z.eq_dec (p mod 10000) 0) as [H4|H4];
    [|exists 3, (p / 1000); pow10_consts; arith].
  destruct (Z.eq_dec (p mod 100000) 0) as [H5|H5];
    [|exists 4, (p / 10000); pow10_consts; arith].
  exists 5, (p / 100000); pow10_consts; arith.
Qed.

(** The shortest digit string of the binary64 number nearest to
    [P / 1000]: the digits of [P] without its trailing zeros. *)
Lemma shortest_grid (m : positive) (e P d L j a : Z) :
  2 ^ 52 <= Z.pos m < 2 ^ 53 ->
  -62 <= e <= -45 ->
  d = 1000 * Z.pos m - P * 2 ^ (- e) ->
  -500 < d < 500 ->
  (Z.pos m = 2 ^ 52 -> d = 0) ->
  1 <= L <= 6 ->
  10 ^ (L - 1) <= P < 10 ^ L ->
  (P = 10 ^ (L - 1) -> 0 <= d) ->
  (52 + e) * 1233 / 4096 - 3 <= L - 3 <= (52 + e) * 1233 / 4096 + 4 ->
  0 <= j -> P = a * 10 ^ j -> a mod 10 <> 0 -> 0 < a ->
  j < L /\
  JS.shortest m e =
    {| JS.sh_s := a; JS.sh_k := Z.to_nat (L - j); JS.sh_n := L - 3 |}.
Proof.
  intros Hm He Hd Hdr Hm52 HL HPL Hpow Hest Hj HP Ha Ha0.
  assert (H10j : 0 < 10 ^ j) by (apply Z.pow_pos_nonneg; lia).
  assert (HP0 : 0 < P) by nia.
  assert (HjL : j < L).
  { destruct (Z.lt_ge_cases j L) as [H|H]; [done|].
    assert (10 ^ L <= 10 ^ j) by (apply Z.pow_le_mono_r; lia). nia. }
  split; [exact HjL|].
  assert (Hrange : 10 ^ (L - j - 1) <= a < 10 ^ (L - j)).
  { destruct HPL as [Hlo Hhi]. split.
    - apply (Z.mul_le_mono_pos_r _ _ (10 ^ j)); [lia|].
      rewrite <- Z.pow_add_r by lia. replace (L - j - 1 + j) with (L - 1) by lia. lia.
    - apply (Z.mul_lt_mono_pos_r (10 ^ j)); [lia|].
      rewrite <- Z.pow_add_r by lia. replace (L - j + j) with L by lia. lia. }
  unfold JS.shortest.
  rewrite (decimal_exponent_grid m e P d Hm He Hd Hdr Hm52 L HL HPL Hpow Hest).
  apply (search_grid m e P Hm L HPL (Z.to_nat (L - j))); [lia| |].
  - intros k' Hk'.
    pose proof (Z.div_mod P (10 ^ (L - Z.of_nat k'))) as Hdm.
    pose proof (Z.mod_pos_bound P (10 ^ (L - Z.of_nat k'))) as Hmb.
    assert (H10c : 0 < 10 ^ (L - Z.of_nat k')) by (apply Z.pow_pos_nonneg; lia).
    apply (candidate_grid m e P d Hm He Hd Hdr Hm52 HP0 (L - 3) k'
             (L - Z.of_nat k') (P / 10 ^ (L - Z.of_nat k')) (P mod 10 ^ (L - Z.of_nat k')));
      [lia|lia|lia|lia|].
    assert (P mod 10 ^ (L - Z.of_nat k') <> 0)
      by (rewrite HP; apply no_trailing_zero; [done|lia]).
    lia.
  - apply (candidate_grid m e P d Hm He Hd Hdr Hm52 HP0 (L - 3) (Z.to_nat (L - j))
             j a 0); [lia|lia|lia|lia|done|].
    rewrite Z2Nat.id by lia. exact Hrange.
Qed.

(** *** The certificate *)

(** Every [n] with [0 < |n| <= 180000] passes the check. *)
Lemma grid_certs_all : Grid.certs (Z.to_nat 180000) 1 = true.
Proof. vm_cast_no_check (eq_refl true). Qed.

(** The estimate of the decimal exponent is within the window that
    [JS.decimal_exponent] searches. *)
Lemma estimate_grid (m e P d L : Z) :
  2 ^ 52 <= m < 2 ^ 53 ->
  -62 <= e <= -45 ->
  d = 1000 * m - P * 2 ^ (- e) ->
  -500 < d < 500 ->
  1 <= L <= 6 ->
  10 ^ (L - 1) <= P < 10 ^ L ->
  (52 + e) * 1233 / 4096 - 3 <= L - 3 <= (52 + e) * 1233 / 4096 + 4.
Proof.
  intros Hm He Hd Hdr HL HPL.
  change (2 ^ 52) with 4503599627370496 in Hm.
  change (2 ^ 53) with 9007199254740992 in Hm.
  assert (He' : e = -62 \/ e = -61 \/ e = -60 \/ e = -59 \/ e = -58 \/ e = -57 \/
                e = -56 \/ e = -55 \/ e = -54 \/ e = -53 \/ e = -52 \/ e = -51 \/
                e = -50 \/ e = -49 \/ e = -48 \/ e = -47 \/ e = -46 \/ e = -45) by lia.
  assert (HL' : L = 1 \/ L = 2 \/ L = 3 \/ L = 4 \/ L = 5 \/ L = 6) by lia.
  clear He HL.
  repeat destruct He' as [->|He']; try subst e;
    match goal with
    | |- context [?x * 1233 / 4096] =>
        let v := eval vm_compute in (x * 1233 / 4096) in
        change (x * 1233 / 4096) with v
    end;
    match type of Hd with
    | context [2 ^ ?x] =>
        let v := eval vm_compute in (2 ^ x) in change (2 ^ x) with v in Hd
    end;
    repeat destruct HL' as [->|HL']; try subst L;
    pow10_consts; lia.
Qed.

Section Words.
Import PrimInt63 PrimInt63.PrimInt63Notations.

Lemma wB_val : Uint63Axioms.wB = 9223372036854775808.
Proof. reflexivity. Qed.

Lemma to_Z_of_Z_small z :
  0 <= z < 9223372036854775808 ->
  Uint63Axioms.to_Z (Uint63Axioms.of_Z z) = z.
Proof. intros H. rewrite Uint63.of_Z_spec, wB_val. apply Z.mod_small. lia. Qed.

Lemma eqb_to_Z (x : int) (z : Z) :
  Uint63Axioms.to_Z x = z -> PrimInt63.eqb x (Uint63Axioms.of_Z z) = true.
Proof. intros <-. rewrite Uint63Axioms.of_to_Z. apply Uint63Axioms.eqb_refl. Qed.

(** A left shift that the right shift undoes has lost no bit. *)
Lemma lsl_exact (p sh : int) :
  0 <= Uint63Axioms.to_Z sh <= 63 ->
  PrimInt63.eqb (PrimInt63.lsr (PrimInt63.lsl p sh) sh) p = true ->
  Uint63Axioms.to_Z (PrimInt63.lsl p sh) =
    Uint63Axioms.to_Z p * 2 ^ Uint63Axioms.to_Z sh.
Proof.
  intros Hsh H. apply Uint63Axioms.eqb_correct in H.
  apply (f_equal Uint63Axioms.to_Z) in H.
  rewrite Uint63Axioms.lsr_spec, Uint63Axioms.lsl_spec in H.
  rewrite Uint63Axioms.lsl_spec, wB_val in *.
  set (s := Uint63Axioms.to_Z sh) in *. set (P := Uint63Axioms.to_Z p) in *.
  change 9223372036854775808 with (2 ^ 63) in *.
  replace 63 with (s + (63 - s)) in * by lia.
  rewrite Z.pow_add_r in * by lia.
  assert (Hs : 0 < 2 ^ s) by (apply Z.pow_pos_nonneg; lia).
  assert (Hc : 0 < 2 ^ (63 - s)) by (apply Z.pow_pos_nonneg; lia).
  rewrite (Z.mul_comm P), Z.mul_mod_distr_l in * by lia.
  rewrite (Z.mul_comm (2 ^ s)), Z.div_mul in H by lia.
  rewrite H. lia.
Qed.

(** A number that passes the check is rendered as [fixed3] writes it. *)
Lemma cert_sound (n : Z) :
  Grid.cert n = true -> 0 < Z.abs n < 10 ^ 6 ->
  JS.NumberToString (of_int n / 1000)%float = fixed3 n.
Proof.
  unfold Grid.cert. intros Hc Hn.
  destruct (frshiftexp (of_int n / 1000)) as [f se] eqn:Hf.
  cbv zeta in Hc.
  assert (Hp : Uint63Axioms.to_Z (Uint63Axioms.of_Z (Z.abs n)) = Z.abs n)
    by (apply to_Z_of_Z_small; change (10 ^ 6) with 1000000 in Hn; lia).
  set (p := Z.abs n) in *. set (pi := Uint63Axioms.of_Z p) in *.
  repeat (apply andb_true_iff in Hc; destruct Hc as [Hc ?]).
  repeat match goal with
         | H : negb (is_nan _) = true |- _ => apply negb_true_iff in H
         | H : negb (is_zero _) = true |- _ => apply negb_true_iff in H
         | H : negb (is_infinity _) = true |- _ => apply negb_true_iff in H
         | H : Bool.eqb _ _ = true |- _ => apply eqb_prop in H
         | H : PrimInt63.leb _ _ = true |- _ => apply Uint63Axioms.leb_spec in H
         | H : PrimInt63.ltb _ _ = true |- _ => apply Uint63Axioms.ltb_spec in H
         end.
  set (mi := normfr_mantissa f) in *.
  set (m := Uint63Axioms.to_Z mi) in *.
  set (s := Uint63Axioms.to_Z se) in *.
  change (Uint63Axioms.to_Z 4503599627370496%uint63) with 4503599627370496 in *.
  change (Uint63Axioms.to_Z 9007199254740992%uint63) with 9007199254740992 in *.
  change (Uint63Axioms.to_Z 2092%uint63) with 2092 in *.
  change (Uint63Axioms.to_Z 2109%uint63) with 2109 in *.
  (* the shift *)
  assert (Hsh : Uint63Axioms.to_Z (PrimInt63.sub 2154%uint63 se) = 2154 - s).
  { rewrite Uint63Axioms.sub_spec, wB_val. fold s.
    change (Uint63Axioms.to_Z 2154%uint63) with 2154. apply Z.mod_small. lia. }
  set (sh := PrimInt63.sub 2154%uint63 se) in *.
  (* the two scaled numbers *)
  assert (Ha : Uint63Axioms.to_Z (PrimInt63.mul 1000%uint63 mi) = 1000 * m).
  { rewrite Uint63Axioms.mul_spec, wB_val. fold m.
    change (Uint63Axioms.to_Z 1000%uint63) with 1000. apply Z.mod_small. lia. }
  set (a := PrimInt63.mul 1000%uint63 mi) in *.
  assert (Hb : Uint63Axioms.to_Z (PrimInt63.lsl pi sh) = p * 2 ^ (2154 - s)).
  { rewrite lsl_exact, Hp, Hsh; [done|lia|done]. }
  set (b := PrimInt63.lsl pi sh) in *.
  assert (Hpb : 0 <= p * 2 ^ (2154 - s)).
  { apply Z.mul_nonneg_nonneg; [lia|]. apply Z.pow_nonneg. lia. }
  assert (Ha500 : Uint63Axioms.to_Z (PrimInt63.add a 500%uint63) = 1000 * m + 500).
  { rewrite Uint63Axioms.add_spec, wB_val, Ha.
    change (Uint63Axioms.to_Z 500%uint63) with 500. apply Z.mod_small. lia. }
  rewrite Ha500, Hb in *.
  assert (Hb500 : Uint63Axioms.to_Z (PrimInt63.add b 500%uint63) =
                  p * 2 ^ (2154 - s) + 500).
  { rewrite Uint63Axioms.add_spec, wB_val, Hb.
    change (Uint63Axioms.to_Z 500%uint63) with 500. apply Z.mod_small. lia. }
  rewrite Ha, Hb500 in *.
  set (e := s - 2154).
  replace (2154 - s) with (- e) in * by (unfold e; lia).
  set (d := 1000 * m - p * 2 ^ (- e)).
  assert (Hm52 : m = 2 ^ 52 -> d = 0).
  { intros Heq. change (2 ^ 52) with 4503599627370496 in Heq.
    apply orb_true_iff in H0 as [H0|H0].
    - apply negb_true_iff in H0.
      pose proof (eqb_to_Z mi 4503599627370496 Heq) as Hx.
      change (Uint63Axioms.of_Z 4503599627370496)
        with 4503599627370496%uint63 in Hx.
      by rewrite Hx in H0.
    - apply Uint63Axioms.eqb_correct in H0.
      apply (f_equal Uint63Axioms.to_Z) in H0. rewrite Ha, Hb in H0.
      unfold d. lia. }
  destruct (digit_count_bounds p Hn) as [HL HPL].
  assert (Hpow : p = 10 ^ (Grid.digit_count p - 1) -> 0 <= d).
  { intros Heq.
    assert (Hpi : Grid.is_pow10 pi = true).
    { unfold pi. rewrite Heq. clear - HL.
      assert (HL' : Grid.digit_count p = 1 \/ Grid.digit_count p = 2 \/
                    Grid.digit_count p = 3 \/ Grid.digit_count p = 4 \/
                    Grid.digit_count p = 5 \/ Grid.digit_count p = 6) by lia.
      repeat destruct HL' as [->|HL']; try rewrite HL'; reflexivity. }
    rewrite Hpi in H. cbn [negb orb] in H.
    apply Uint63Axioms.leb_spec in H. rewrite Ha, Hb in H. unfold d. lia. }
  assert (Hest := estimate_grid m e p d (Grid.digit_count p)).
  destruct (trailing_zeros_exist p Hn) as (j & q & Hj & Hpq & Hq & Hq0).
  assert (Hmpos : Z.pos (Z.to_pos m) = m) by (apply Z2Pos.id; lia).
  destruct (shortest_grid (Z.to_pos m) e p d (Grid.digit_count p) j q) as [HjL Hsh'];
    try rewrite Hmpos; try done; try (unfold e, d; lia).
  { apply Hest; try done; unfold e, d; lia. }
  unfold JS.NumberToString.
  rewrite (Prim2SF_normal _ f (s - 2101)); try done; try (fold m; lia).
  2:{ unfold Z.frexp. rewrite Hf. reflexivity. }
  fold mi m. replace (s - 2101 - 53) with e by (unfold e; lia).
  rewrite Hsh'.
  rewrite (render_grid p (Grid.digit_count p) j q) by (done || lia).
  unfold fixed3. fold p. unfold fixed3_body.
  match goal with H : get_sign _ = _ |- _ => rewrite H end.
  reflexivity.
Qed.

End Words.

(** [Grid.certs] checks every number of its range, and its opposite. *)
Lemma certs_spec fuel : forall n,
  Grid.certs fuel n = true ->
  forall k, n <= k < n + Z.of_nat fuel ->
  Grid.cert k = true /\ Grid.cert (- k) = true.
Proof.
  induction fuel as [|fuel IH]; intros n H k Hk; [lia|].
  cbn [Grid.certs] in H.
  destruct (Grid.cert n && Grid.cert (- n)) eqn:Hn; [|done].
  apply andb_true_iff in Hn.
  destruct (Z.eq_dec k n) as [->|Hne]; [done|].
  apply (IH (n + 1)); [done|lia].
Qed.

Lemma cert_all n : 1 <= Z.abs n <= 180000 -> Grid.cert n = true.
Proof.
  intros Hn.
  destruct (certs_spec _ _ grid_certs_all (Z.abs n)) as [Hp Hm].
  { rewrite Z2Nat.id by done. lia. }
  destruct n as [|q|q]; cbn [Z.abs Z.opp] in *; [lia|done|done].
Qed.

(** On the grid, [Number::toString] of the quotient is the fixed
    notation of the thousandths. *)
Lemma NumberToString_grid n :
  1 <= Z.abs n <= 180000 ->
  JS.NumberToString (of_int n / 1000)%float = fixed3 n.
Proof.
  intros Hn. apply cert_sound; [by apply cert_all|].
  change (10 ^ 6) with 1000000. lia.
Qed.

(** *** [fixed3] writes fixed-decimal numerals *)

Lemma append_cons c (a b : string) : String c a ++ b = String c (a ++ b).
Proof. reflexivity. Qed.

Lemma append_empty_r (a : string) : a ++ "" = a.
Proof. induction a as [|c a IH]; [done|]. by rewrite append_cons, IH. Qed.

Lemma append_assoc (a b c : string) : (a ++ b) ++ c = a ++ b ++ c.
Proof. induction a as [|x a IH]; [done|]. by rewrite !append_cons, IH. Qed.

Lemma length_append (a b : string) :
  String.length (a ++ b) = (String.length a + String.length b)%nat.
Proof.
  induction a as [|x a IH]; [done|].
  rewrite append_cons. cbn [String.length]. by rewrite IH.
Qed.

Lemma all_digits_append (a b : string) :
  all_digits (a ++ b) = all_digits a && all_digits b.
Proof.
  induction a as [|x a IH]; [done|].
  rewrite append_cons. cbn [all_digits]. by rewrite IH, andb_assoc.
Qed.

Lemma is_digit_digit_char x : 0 <= x < 10 -> is_digit (JS.digit_char x) = true.
Proof.
  intros Hx.
  assert (H : x = 0 \/ x = 1 \/ x = 2 \/ x = 3 \/ x = 4 \/ x = 5 \/ x = 6 \/
              x = 7 \/ x = 8 \/ x = 9) by lia.
  repeat destruct H as [->|H]; try reflexivity. by subst.
Qed.

(** [JS.digits k] puts [k] decimal digits in front of the accumulator. *)
Lemma digits_spec k : forall s acc,
  exists ds, JS.digits k s acc = ds ++ acc /\
             String.length ds = k /\ all_digits ds = true.
Proof.
  induction k as [|k IH]; intros s acc; [by exists ""|].
  cbn [JS.digits].
  destruct (IH (s / 10) (String (JS.digit_char (s mod 10)) acc)) as (ds & Heq & Hlen & Hall).
  rewrite Heq. clear Heq IH.
  exists (ds ++ String (JS.digit_char (s mod 10)) ""). split; [|split].
  - by rewrite append_assoc.
  - rewrite length_append, Hlen. cbn [String.length]. lia.
  - rewrite all_digits_append, Hall. cbn [all_digits andb].
    rewrite is_digit_digit_char; [done|]. apply Z.mod_pos_bound. lia.
Qed.

Lemma count_digits_pos fuel s : (1 <= JS.count_digits fuel s)%nat.
Proof. destruct fuel; cbn [JS.count_digits]; [lia|]. destruct (s <? 10); lia. Qed.

Lemma nat_dec_spec s :
  all_digits (JS.nat_dec s) = true /\ (1 <= String.length (JS.nat_dec s))%nat.
Proof.
  unfold JS.nat_dec.
  destruct (digits_spec (JS.count_digits (Z.to_nat (Z.log2 s) + 1) s) s "")
    as (ds & Heq & Hlen & Hall).
  pose proof (count_digits_pos (Z.to_nat (Z.log2 s) + 1) s).
  rewrite Heq, append_empty_r. split; [done|lia].
Qed.

Lemma fraction3_spec f :
  all_digits (fraction3 f) = true /\
  (1 <= String.length (fraction3 f) <= 3)%nat.
Proof.
  unfold fraction3.
  destruct (f mod 100 =? 0); [|destruct (f mod 10 =? 0)];
    match goal with
    | |- context [JS.digits ?k ?s ""] =>
        destruct (digits_spec k s "") as (ds & Heq & Hlen & Hall)
    end; rewrite Heq, append_empty_r; split; (done || lia).
Qed.

Lemma digit_not_point c : is_digit c = true -> Ascii.eqb c "."%char = false.
Proof. intros H. by destruct (Ascii.eqb_spec c "."%char) as [->|]. Qed.

Lemma digit_not_comma c : is_digit c = true -> Ascii.eqb c ","%char = false.
Proof. intros H. by destruct (Ascii.eqb_spec c ","%char) as [->|]. Qed.

Lemma split_point_digits ds rest :
  all_digits ds = true ->
  split_point (ds ++ rest) =
    let (a, b) := split_point rest in (ds ++ a, b).
Proof.
  intros H. induction ds as [|c ds IH].
  - change ("" ++ rest) with rest. by destruct (split_point rest).
  - cbn [all_digits] in H. apply andb_true_iff in H as [Hc H].
    rewrite append_cons. cbn [split_point].
    rewrite (digit_not_point c Hc), (IH H).
    by destruct (split_point rest).
Qed.

Lemma split_comma_digits ds rest :
  all_digits ds = true ->
  split_comma (ds ++ rest) = let (a, b) := split_comma rest in (ds ++ a, b).
Proof.
  intros H. induction ds as [|c ds IH].
  - change ("" ++ rest) with rest. by destruct (split_comma rest).
  - cbn [all_digits] in H. apply andb_true_iff in H as [Hc H].
    rewrite append_cons. cbn [split_comma].
    rewrite (digit_not_comma c Hc), (IH H).
    by destruct (split_comma rest).
Qed.

Lemma nonempty_eqb (t : string) :
  (1 <= String.length t)%nat -> String.eqb t "" = false.
Proof. destruct t; cbn [String.length String.eqb]; [lia|done]. Qed.

Lemma unsigned_fixed_body p : unsigned_fixed (fixed3_body p) = true.
Proof.
  unfold fixed3_body, unsigned_fixed.
  destruct (nat_dec_spec (p / 1000)) as [Hd Hl].
  rewrite split_point_digits by done.
  destruct (p mod 1000 =? 0).
  - cbn [split_point]. rewrite append_empty_r, nonempty_eqb, Hd by done. reflexivity.
  - rewrite append_cons. cbn [split_point Ascii.eqb Bool.eqb].
    rewrite append_empty_r, nonempty_eqb, Hd by done.
    destruct (fraction3_spec (p mod 1000)) as [Hf [H1 H3]].
    change ("" ++ fraction3 (p mod 1000)) with (fraction3 (p mod 1000)). rewrite Hf.
    apply Nat.leb_le in H1, H3. by rewrite H1, H3.
Qed.

Lemma fixed3_sign n :
  fixed3 n = (if n <? 0 then "-" else "") ++ fixed3_body (Z.abs n).
Proof. reflexivity. Qed.

Lemma fixed3_body_head p :
  exists c t, fixed3_body p = String c t /\ is_digit c = true.
Proof.
  unfold fixed3_body.
  destruct (nat_dec_spec (p / 1000)) as [Hd Hl].
  destruct (JS.nat_dec (p / 1000)) as [|c t]; cbn [String.length] in Hl; [lia|].
  cbn [all_digits] in Hd. apply andb_true_iff in Hd as [Hc _].
  rewrite append_cons. by eexists _, _.
Qed.

Lemma fixed3_fixed_decimal n : fixed_decimal (fixed3 n) = true.
Proof.
  rewrite fixed3_sign. pose proof (unsigned_fixed_body (Z.abs n)) as H.
  destruct (n <? 0).
  - by rewrite append_cons.
  - change ("" ++ fixed3_body (Z.abs n)) with (fixed3_body (Z.abs n)).
    destruct (fixed3_body_head (Z.abs n)) as (c & t & Heq & Hc).
    rewrite Heq in *. unfold fixed_decimal.
    destruct c as [[] [] [] [] [] [] [] []]; done.
Qed.

Lemma split_comma_body p rest :
  split_comma (fixed3_body p ++ "," ++ rest) = (fixed3_body p, Some rest).
Proof.
  unfold fixed3_body.
  destruct (nat_dec_spec (p / 1000)) as [Hd _].
  rewrite append_assoc, split_comma_digits by done.
  destruct (p mod 1000 =? 0).
  - change ("" ++ "," ++ rest) with (String ","%char rest).
    cbn [split_comma Ascii.eqb Bool.eqb]. by rewrite append_empty_r.
  - destruct (fraction3_spec (p mod 1000)) as [Hf _].
    rewrite !append_cons. cbn [split_comma Ascii.eqb Bool.eqb].
    change ("" ++ fraction3 (p mod 1000)) with (fraction3 (p mod 1000)).
    rewrite split_comma_digits by done.
    change ("" ++ rest) with rest.
    cbn [split_comma Ascii.eqb Bool.eqb]. by rewrite append_empty_r.
Qed.

Lemma split_comma_fixed3 n rest :
  split_comma (fixed3 n ++ "," ++ rest) = (fixed3 n, Some rest).
Proof.
  rewrite fixed3_sign. destruct (n <? 0).
  - change (("-" ++ fixed3_body (Z.abs n)) ++ "," ++ rest)
      with (String "-"%char (fixed3_body (Z.abs n) ++ "," ++ rest)).
    cbn [split_comma Ascii.eqb Bool.eqb].
    by rewrite (split_comma_body (Z.abs n) rest).
  - change ("" ++ fixed3_body (Z.abs n)) with (fixed3_body (Z.abs n)).
    apply split_comma_body.
Qed.

Lemma fixed_key_fixed3 a b : fixed_key (fixed3 a ++ "," ++ fixed3 b) = true.
Proof.
  unfold fixed_key. rewrite split_comma_fixed3.
  by rewrite !fixed3_fixed_decimal.
Qed.

(** *** The key *)

Section GridKey.
Import Service.

(** The quotient by 1000 of a Number with an integer value on the grid,
    both zeros included. *)
Lemma NumberToString_thousandths (y : float) (n : Z) :
  has_int_value y n -> Z.abs n <= 180000 ->
  JS.NumberToString (y / 1000)%float = fixed3 n.
Proof.
  intros [->|[-> ->]] Hn; [|by vm_compute].
  destruct (Z.eq_dec n 0) as [->|Hne]; [by vm_compute|].
  apply NumberToString_grid. lia.
Qed.

(** [Math.round] of a finite number with a fraction part is a Number
    with an integer value: the hypotheses of the theorem on the key
    speak of every such coordinate. *)
Lemma Math_round_has_int_value (x : float) (s : bool) (m : positive) (e : Z) :
  Prim2SF x = S754_finite s m e -> e < 0 ->
  has_int_value (JS.Math_round x)
    ((2 * (if s then Z.neg m else Z.pos m) + 2 ^ (- e)) / 2 ^ (1 - e)).
Proof.
  intros Hx He. unfold JS.Math_round. rewrite Hx.
  destruct (Z.leb_spec 0 e) as [H|_]; [lia|]. cbv zeta.
  destruct ((2 * (if s then Z.neg m else Z.pos m) + 2 ^ (- e)) / 2 ^ (1 - e))
    as [|r|r]; [|by left..].
  destruct s; [by right|by left].
Qed.

(** C2, amended.  When the rounded products [Math.round(lat * 1000)] and
    [Math.round(lng * 1000)] are integers [a] and [b] of magnitude at
    most 180000 (the thousandths of a latitude and of a longitude), the
    key is ["<lat>,<lng>"] with [a / 1000] and [b / 1000] in fixed decimal
    notation: a minus sign if the number is negative, the integer part,
    and, if there is a fraction, a point and its one to three digits
    without trailing zeros, as in ["26.761,83.373"].  The key depends on
    [a] and [b] only, so the same input always yields the same key. *)
Theorem key_on_the_grid_is_fixed_decimal (lat lng : float) (a b : Z) :
  has_int_value (JS.Math_round (lat * 1000)) a ->
  has_int_value (JS.Math_round (lng * 1000)) b ->
  Z.abs a <= 180000 -> Z.abs b <= 180000 ->
  generateCacheKey lat lng = fixed3 a ++ "," ++ fixed3 b /\
  fixed_key (generateCacheKey lat lng) = true.
Proof.
  intros Ha Hb Hra Hrb.
  assert (Hkey : generateCacheKey lat lng = fixed3 a ++ "," ++ fixed3 b).
  { rewrite generateCacheKey_unfold. unfold round3.
    by rewrite (NumberToString_thousandths _ a Ha Hra),
               (NumberToString_thousandths _ b Hb Hrb). }
  split; [exact Hkey|]. rewrite Hkey. apply fixed_key_fixed3.
Qed.

Lemma key_on_the_grid_is_fixed_decimal_witness :
  generateCacheKey 26.7606 83.3732 = "26.761,83.373" /\
  fixed_key (generateCacheKey 26.7606 83.3732) = true.
Proof.
  apply (key_on_the_grid_is_fixed_decimal 26.7606 83.3732 26761 83373).
  - left. reflexivity.
  - left. reflexivity.
  - cbn. lia.
  - cbn. lia.
Defined.

End GridKey.

(* ===================================================================== *)
(** ** Keys and cells                                                    *)
(* ===================================================================== *)

Section Cells.
Import Service.

Lemma digit_val_digit_char x : 0 <= x < 10 -> digit_val (JS.digit_char x) = x.
Proof.
  intros Hx. unfold digit_val, JS.digit_char.
  rewrite nat_ascii_embedding by lia. lia.
Qed.

Lemma num_from_digits k : forall s acc a,
  0 <= s ->
  num_from a (JS.digits k s acc) = num_from (a * 10 ^ Z.of_nat k + s mod 10 ^ Z.of_nat k) acc.
Proof.
  induction k as [|k IH]; intros s acc a Hs.
  - cbn [JS.digits]. change (10 ^ Z.of_nat 0) with 1. rewrite Z.mod_1_r. f_equal. lia.
  - cbn [JS.digits]. rewrite IH by (apply Z.div_pos; lia). cbn [num_from].
    rewrite digit_val_digit_char by (apply Z.mod_pos_bound; lia).
    f_equal. rewrite Nat2Z.inj_succ, Z.pow_succ_r by lia.
    rewrite (Z.rem_mul_r s 10 (10 ^ Z.of_nat k)) by (try apply Z.pow_pos_nonneg; lia).
    ring.
Qed.

Lemma count_digits_enough fuel : forall s,
  0 <= s < 2 ^ Z.of_nat fuel -> s < 10 ^ Z.of_nat (JS.count_digits fuel s).
Proof.
  induction fuel as [|fuel IH]; intros s Hs.
  - cbn in *. lia.
  - cbn [JS.count_digits]. destruct (Z.ltb_spec s 10) as [H|H]; [cbn; lia|].
    rewrite Nat2Z.inj_succ, Z.pow_succ_r in * by lia.
    assert (s / 10 < 10 ^ Z.of_nat (JS.count_digits fuel (s / 10))).
    { apply IH. split; [apply Z.div_pos; lia|].
      apply Z.div_lt_upper_bound; lia. }
    pose proof (Z.div_mod s 10 ltac:(lia)). pose proof (Z.mod_pos_bound s 10 ltac:(lia)).
    lia.
Qed.

Lemma num_from_nat_dec s : 0 <= s -> num_from 0 (JS.nat_dec s) = s.
Proof.
  intros Hs. unfold JS.nat_dec. rewrite num_from_digits by done. cbn [num_from].
  rewrite Z.mul_0_l, Z.add_0_l. apply Z.mod_small. split; [done|].
  apply count_digits_enough. split; [done|].
  rewrite Nat2Z.inj_add, Z2Nat.id by apply Z.log2_nonneg.
  destruct (Z.eq_dec s 0) as [->|Hne]; [done|].
  change (Z.of_nat 1) with 1. rewrite Z.add_1_r. apply Z.log2_spec. lia.
Qed.

Lemma length_digits k s : String.length (JS.digits k s "") = k.
Proof.
  destruct (digits_spec k s "") as (ds & Heq & Hlen & _).
  by rewrite Heq, append_empty_r.
Qed.

Lemma num_from_fraction3 f :
  0 < f < 1000 ->
  num_from 0 (fraction3 f) * 10 ^ (3 - Z.of_nat (String.length (fraction3 f))) = f.
Proof.
  intros Hf. unfold fraction3.
  destruct (Z.eqb_spec (f mod 100) 0) as [H100|H100];
    [|destruct (Z.eqb_spec (f mod 10) 0) as [H10|H10]];
    rewrite length_digits, num_from_digits by (try apply Z.div_pos; lia);
    cbn [num_from]; pow10_consts.
  - change (10 ^ (3 - Z.of_nat 1)) with 100. change (10 ^ Z.of_nat 1) with 10. arith.
  - change (10 ^ (3 - Z.of_nat 2)) with 10. change (10 ^ Z.of_nat 2) with 100. arith.
  - change (10 ^ (3 - Z.of_nat 3)) with 1. change (10 ^ Z.of_nat 3) with 1000. arith.
Qed.

Lemma unsigned_thousandths_body p :
  0 <= p -> unsigned_thousandths (fixed3_body p) = p.
Proof.
  intros Hp. unfold unsigned_thousandths, fixed3_body.
  destruct (nat_dec_spec (p / 1000)) as [Hd _].
  rewrite split_point_digits by done.
  assert (Hi : num_from 0 (JS.nat_dec (p / 1000)) = p / 1000)
    by (apply num_from_nat_dec, Z.div_pos; lia).
  destruct (Z.eqb_spec (p mod 1000) 0) as [H0|H0].
  - cbn [split_point]. rewrite append_empty_r, Hi. arith.
  - rewrite append_cons. cbn [split_point Ascii.eqb Bool.eqb].
    change ("" ++ fraction3 (p mod 1000)) with (fraction3 (p mod 1000)).
    rewrite append_empty_r, Hi, num_from_fraction3; arith.
Qed.

(** Reading what [fixed3] writes gives the number back. *)
Lemma thousandths_fixed3 n : thousandths (fixed3 n) = n.
Proof.
  rewrite fixed3_sign. destruct (Z.ltb_spec n 0) as [Hn|Hn].
  - rewrite append_cons. change ("" ++ ?x) with x. cbn [thousandths].
    change ("" ++ fixed3_body (Z.abs n)) with (fixed3_body (Z.abs n)).
    rewrite unsigned_thousandths_body; lia.
  - change ("" ++ fixed3_body (Z.abs n)) with (fixed3_body (Z.abs n)).
    destruct (fixed3_body_head (Z.abs n)) as (c & t & Heq & Hc).
    assert (Hu : unsigned_thousandths (fixed3_body (Z.abs n)) = n)
      by (rewrite unsigned_thousandths_body; lia).
    rewrite Heq in *. unfold thousandths.
    destruct c as [[] [] [] [] [] [] [] []]; done.
Qed.

Lemma cell_of_key_fixed3 a b :
  cell_of_key (fixed3 a ++ "," ++ fixed3 b) = Some (a, b).
Proof.
  unfold cell_of_key. by rewrite split_comma_fixed3, !thousandths_fixed3.
Qed.

(** The key of coordinates on the grid, from the integer values of the
    rounded products. *)
Lemma generateCacheKey_on_grid x y p q :
  has_int_value (JS.Math_round (x * 1000)) p ->
  has_int_value (JS.Math_round (y * 1000)) q ->
  Z.abs p <= 180000 -> Z.abs q <= 180000 ->
  generateCacheKey x y = fixed3 p ++ "," ++ fixed3 q.
Proof.
  intros Hp Hq Hrp Hrq. rewrite generateCacheKey_unfold. unfold round3.
  by rewrite (NumberToString_thousandths _ p Hp Hrp),
             (NumberToString_thousandths _ q Hq Hrq).
Qed.

(** [Math.round] takes the product of a coordinate in the cell [n] to
    the Number [n]. *)
Lemma in_cell_Math_round x n :
  in_cell x n = true -> has_int_value (JS.Math_round (x * 1000)) n.
Proof.
  unfold in_cell. intros H.
  destruct (Prim2SF (x * 1000)) as [sz| | |s m e] eqn:Hx; try done.
  - apply Z.eqb_eq in H as ->.
    unfold JS.Math_round. rewrite Hx.
    rewrite <- (FloatAxioms.SF2Prim_Prim2SF (x * 1000)), Hx.
    destruct sz; [by right|by left].
  - cbv zeta in H. apply andb_prop in H as [H H3]. apply andb_prop in H as [H1 H2].
    apply Z.ltb_lt in H1, H3. apply Z.leb_le in H2.
    pose proof (Math_round_has_int_value _ s m e Hx H1) as Hr.
    replace ((2 * (if s then Z.neg m else Z.pos m) + 2 ^ (- e)) / 2 ^ (1 - e))
      with n in Hr; [done|].
    assert (Hp : 0 < 2 ^ (- e)) by (apply Z.pow_pos_nonneg; lia).
    replace (1 - e) with (Z.succ (- e)) by lia.
    rewrite Z.pow_succ_r by lia.
    apply Z.div_unique with
      (r := 2 * (if s then Z.neg m else Z.pos m) + 2 ^ (- e) - 2 * 2 ^ (- e) * n); lia.
Qed.

(** A product with a fraction part lies in a cell, and in one only. *)
Lemma in_cell_exists x s m e :
  Prim2SF (x * 1000) = S754_finite s m e -> e < 0 -> exists n, in_cell x n = true.
Proof.
  intros Hx He.
  exists ((2 * (if s then Z.neg m else Z.pos m) + 2 ^ (- e)) / 2 ^ (1 - e)).
  unfold in_cell. rewrite Hx. cbv zeta.
  assert (Hp : 0 < 2 ^ (- e)) by (apply Z.pow_pos_nonneg; lia).
  replace (1 - e) with (Z.succ (- e)) by lia. rewrite Z.pow_succ_r by lia.
  set (v := 2 * (if s then Z.neg m else Z.pos m)).
  pose proof (Z.div_mod (v + 2 ^ (- e)) (2 * 2 ^ (- e)) ltac:(lia)) as Hd.
  pose proof (Z.mod_pos_bound (v + 2 ^ (- e)) (2 * 2 ^ (- e)) ltac:(lia)) as Hm.
  apply andb_true_intro. split; [apply andb_true_intro; split|].
  - apply Z.ltb_lt. lia.
  - apply Z.leb_le. nia.
  - apply Z.ltb_lt. nia.
Qed.

Lemma in_cell_unique x n n' :
  in_cell x n = true -> in_cell x n' = true -> n = n'.
Proof.
  unfold in_cell.
  destruct (Prim2SF (x * 1000)) as [sz| | |s m e]; try done.
  - intros H H'. apply Z.eqb_eq in H, H'. lia.
  - cbv zeta. intros H H'.
    apply andb_prop in H as [H H3]. apply andb_prop in H as [H1 H2].
    apply andb_prop in H' as [H' H3']. apply andb_prop in H' as [_ H2'].
    apply Z.ltb_lt in H1, H3, H3'. apply Z.leb_le in H2, H2'.
    assert (Hp : 0 < 2 ^ (- e)) by (apply Z.pow_pos_nonneg; lia).
    nia.
Qed.

(** C9. The quantizer is a total function of the coordinates: it yields
    a key for every pair and the same key each time, and coordinates
    whose scaled values round to the same Numbers get the same key.  It
    groups the coordinates by their cell of the grid of thousandths: if
    [lat] and [lng] lie in the cells [a] and [b] (the integers nearest to
    [lat * 1000] and [lng * 1000], the upper one of two equally near), of
    magnitude at most 180000, the key denotes the cell: read as two
    decimal numerals it is [(a / 1000, b / 1000)]; and two such pairs of
    coordinates have the same key exactly when they lie in the same cell
    in both components.  In particular (26.76061, 83.37321) and
    (26.76064, 83.37324) share a key, and (26.7601, 83.3732) and
    (26.7611, 83.3732) do not. *)
Theorem quantizer_groups_by_cell :
  (forall lat lng, exists key, generateCacheKey lat lng = key) /\
  (forall lat lng k1 k2,
      generateCacheKey lat lng = k1 -> generateCacheKey lat lng = k2 -> k1 = k2) /\
  (forall lat1 lng1 lat2 lng2,
      JS.Math_round (lat1 * 1000) = JS.Math_round (lat2 * 1000) ->
      JS.Math_round (lng1 * 1000) = JS.Math_round (lng2 * 1000) ->
      generateCacheKey lat1 lng1 = generateCacheKey lat2 lng2) /\
  (forall lat lng lat' lng' a b a' b',
      in_cell lat a = true -> in_cell lng b = true ->
      in_cell lat' a' = true -> in_cell lng' b' = true ->
      Z.abs a <= 180000 -> Z.abs b <= 180000 ->
      Z.abs a' <= 180000 -> Z.abs b' <= 180000 ->
      cell_of_key (generateCacheKey lat lng) = Some (a, b) /\
      (generateCacheKey lat lng = generateCacheKey lat' lng' <-> a = a' /\ b = b')) /\
  generateCacheKey 26.76061 83.37321 = generateCacheKey 26.76064 83.37324 /\
  generateCacheKey 26.7601 83.3732 <> generateCacheKey 26.7611 83.3732.
Proof.
  split; [by eauto|]. split; [by intros lat lng k1 k2 <- <-|].
  split; [intros lat1 lng1 lat2 lng2 H1 H2; unfold generateCacheKey; by rewrite H1, H2|].
  split; [|split; [by vm_compute|vm_compute; discriminate]].
  intros lat lng lat' lng' a b a' b' Ha Hb Ha' Hb' Hra Hrb Hra' Hrb'.
  apply in_cell_Math_round in Ha, Hb, Ha', Hb'.
  rewrite (generateCacheKey_on_grid lat lng a b),
          (generateCacheKey_on_grid lat' lng' a' b') by done.
  split; [apply cell_of_key_fixed3|]. split.
  - intros H. apply (f_equal cell_of_key) in H.
    rewrite !cell_of_key_fixed3 in H. by injection H.
  - by intros [-> ->].
Qed.

(** The coordinates of C9 in their cells: (26.76061, 83.37321) and
    (26.76064, 83.37324) lie in the cell (26761, 83373), which their key
    denotes. *)
Lemma quantizer_groups_by_cell_witness :
  cell_of_key (generateCacheKey 26.76061 83.37321) = Some (26761, 83373) /\
  (generateCacheKey 26.76061 83.37321 = generateCacheKey 26.76064 83.37324 <->
   26761 = 26761 /\ 83373 = 83373).
Proof.
  apply (proj1 (proj2 (proj2 (proj2 quantizer_groups_by_cell)))
           26.76061%float 83.37321%float 26.76064%float 83.37324%float
           26761 83373 26761 83373);
    first [by vm_compute | cbn; lia].
Defined.

End Cells.
